(** * imaginarylistsearch: the keyed permutation, the scorer and the key search

    A shallow embedding of [src/main.cpp]: the 4-round Feistel permutation
    [prp16] with its round function [F], the membership predicate
    [hasValue], the scorer [score_list] and the random-restart hillclimber
    [searchBestListID], followed by the properties of the design document.

    Machine integers are integers of [Z] with the conversions of the source
    written out: [u8], [u16] and [u32] are the casts to the unsigned types,
    [to_int] is the conversion to [int]. *)

From Stdlib Require Import ZArith List Bool Lia Permutation.
From Stdlib Require String.
Import ListNotations.
Local Open Scope Z_scope.

(** ** Fixed-width integers *)

Module Width.

Definition u8 (z : Z) : Z := z mod 2 ^ 8.
Definition u16 (z : Z) : Z := z mod 2 ^ 16.
Definition u32 (z : Z) : Z := z mod 2 ^ 32.
Definition u64 (z : Z) : Z := z mod 2 ^ 64.

(** Conversion to [int], and the result of [int] arithmetic: the value
    modulo 2^32 that lies in [-2^31, 2^31). *)
Definition to_int (z : Z) : Z := (z + 2 ^ 31) mod 2 ^ 32 - 2 ^ 31.

Definition INT_MAX : Z := 2 ^ 31 - 1.

Definition is_u8 (z : Z) : Prop := 0 <= z < 2 ^ 8.
Definition is_u16 (z : Z) : Prop := 0 <= z < 2 ^ 16.
Definition is_u32 (z : Z) : Prop := 0 <= z < 2 ^ 32.

End Width.
Import Width.

(** ** Counted loops

    [for_range lo hi body s] is [for (i = lo; i < hi; ++i) s = body i s];
    [for_range_break] is the same loop whose body may end it: the body
    returns the new state and whether it executed [break]. *)

Fixpoint for_loop {S : Type} (fuel : nat) (i : Z) (body : Z -> S -> S) (s : S) : S :=
  match fuel with
  | O => s
  | Datatypes.S fuel' => for_loop fuel' (i + 1) body (body i s)
  end.

Definition for_range {S : Type} (lo hi : Z) (body : Z -> S -> S) (s : S) : S :=
  for_loop (Z.to_nat (hi - lo)) lo body s.

Fixpoint for_loop_break {S : Type} (fuel : nat) (i : Z)
    (body : Z -> S -> S * bool) (s : S) : S :=
  match fuel with
  | O => s
  | Datatypes.S fuel' =>
      let '(s', brk) := body i s in
      if brk then s' else for_loop_break fuel' (i + 1) body s'
  end.

Definition for_range_break {S : Type} (lo hi : Z)
    (body : Z -> S -> S * bool) (s : S) : S :=
  for_loop_break (Z.to_nat (hi - lo)) lo body s.

(** ** PRP16: 4-round Feistel over 8+8 bits *)

Definition F (r k round : Z) : Z :=
  let x := u32 r in
  let x := Z.lxor x (Z.land (Z.shiftr k (round * 8)) 0xFF) in
  let x := u32 (x * 0x45D9F3B) in
  let x := Z.lxor x (Z.shiftr x 16) in
  let x := u32 (x * 0x45D9F3B) in
  let x := Z.lxor x (Z.shiftr x 16) in
  u8 x.

(** One turn of the loop of [prp16] on the pair [(L, R)]. *)
Definition feistel_round (key r : Z) (LR : Z * Z) : Z * Z :=
  let '(L, R) := LR in
  let t := u8 (Z.lxor L (F R key r)) in
  (R, t).

Definition prp16 (x key : Z) : Z :=
  let L := u8 (Z.shiftr x 8) in
  let R := u8 (Z.land x 0xFF) in
  let '(L, R) := for_range 0 4 (feistel_round key) (L, R) in
  u16 (Z.lor (u16 (Z.shiftl (u16 L) 8)) (u16 R)).

(** Membership: MSB(prp16(x)) == 0. *)
Definition hasValue (listID x : Z) : bool :=
  let y := prp16 x listID in
  Z.land y 0x8000 =? 0.

(** ** Scoring

    [score_list listID data n] is only called with [data = block.data()]
    and [n = block.size()]: the block is a list and [n] its length.  The
    counter [s] and the difference [(int)n - s] are [int]. *)

Definition score_list (listID : Z) (data : list Z) : Z :=
  let n := Z.of_nat (length data) in
  let s :=
    for_range 0 n
      (fun i s => to_int (s + (if hasValue listID (nth (Z.to_nat i) data 0) then 1 else 0)))
      0 in
  Z.max s (to_int (to_int n - s)).

(** ** Search: random restarts + greedy bit-flip hillclimb *)

Record SearchConfig : Type := {
  restarts : Z;
  hillIters : Z;
  tryAllBits : bool
}.

Definition default_config : SearchConfig :=
  {| restarts := 200; hillIters := 6; tryAllBits := true |}.

Record SearchResult : Type := {
  bestID : Z;
  bestScore : Z
}.

(** The default member initialisers of [SearchResult]. *)
Definition default_result : SearchResult := {| bestID := 0; bestScore := -1 |}.

Definition default_seed : Z := 0xC0FFEE123456789.

(** The random source of the search belongs to the C++ library, not to the
    repository: [rng] is the state of the engine, [rng_init] its
    construction from the seed ([std::mt19937_64 rng(rngSeed)]) and [dist32]
    one draw [dist32(rng)], which returns the number drawn and the state
    the engine is left in. *)
Class RandomSource : Type := {
  rng : Type;
  rng_init : Z -> rng;
  dist32 : rng -> Z * rng
}.

(** The variables of the lambda [hillclimb] inside one pass. *)
Record climb : Type := {
  cur : Z;
  curScore : Z;
  improved : bool
}.

(** The body of the loop over the bits. *)
Definition try_bit (block : list Z) (b : Z) (c : climb) : climb :=
  let cand := Z.lxor (cur c) (u32 (Z.shiftl 1 b)) in
  let sc := score_list cand block in
  if sc >? curScore c
  then {| cur := cand; curScore := sc; improved := true |}
  else c.

(** The body of the loop over the passes, on the pair [(cur, curScore)];
    the boolean is [true] when the pass ends with [break]. *)
Definition climb_pass (block : list Z) (pass : Z) (st : Z * Z) : (Z * Z) * bool :=
  let c :=
    for_range 0 32 (try_bit block)
      {| cur := fst st; curScore := snd st; improved := false |} in
  ((cur c, curScore c), negb (improved c)).

Definition hillclimb (block : list Z) (cfg : SearchConfig) (startID : Z) : Z * Z :=
  let cur0 := startID in
  let curScore0 := score_list cur0 block in
  for_range_break 0 (hillIters cfg) (climb_pass block) (cur0, curScore0).

Section Search.

Context {RS : RandomSource}.

(** The body of the loop over the restarts, on the engine and [res]. *)
Definition restart (block : list Z) (cfg : SearchConfig) (r : Z)
    (st : rng * SearchResult) : rng * SearchResult :=
  let '(g, res) := st in
  let '(drawn, g') := dist32 g in
  let start := u32 drawn in
  let '(id, sc) := hillclimb block cfg start in
  if sc >? bestScore res
  then (g', {| bestID := id; bestScore := sc |})
  else (g', res).

Definition searchBestListID (block : list Z) (cfg : SearchConfig) (rngSeed : Z)
    : SearchResult :=
  let g := rng_init rngSeed in
  let res := default_result in
  snd (for_range 0 (restarts cfg) (restart block cfg) (g, res)).

End Search.

(** ** An instance of the random source

    The engine [std::mt19937_64] as the C++ standard defines it
    (a Mersenne Twister of 312 words of 64 bits).  How
    [std::uniform_int_distribution] turns a draw of the engine into a 32-bit
    number is left to the implementation; this instance keeps the high 32
    bits of one draw.  The theorems on the search hold for every instance
    of [RandomSource]; this one serves to run the search on concrete
    inputs. *)

Module MT64.

Record engine : Type := { M_x : list Z; M_p : Z }.

Definition word (x : list Z) (i : Z) : Z := nth (Z.to_nat i) x 0.

Fixpoint set_nth (x : list Z) (i : nat) (v : Z) : list Z :=
  match x, i with
  | [], _ => []
  | _ :: t, O => v :: t
  | h :: t, Datatypes.S i' => h :: set_nth t i' v
  end.

Definition set_word (x : list Z) (i v : Z) : list Z := set_nth x (Z.to_nat i) v.

Definition seed (value : Z) : engine :=
  let x := u64 value :: repeat 0 311 in
  let x :=
    for_range 1 312
      (fun i x =>
         let p := word x (i - 1) in
         let p := Z.lxor p (Z.shiftr p 62) in
         set_word x i (u64 (6364136223846793005 * p + i mod 312)))
      x in
  {| M_x := x; M_p := 312 |}.

Definition gen_rand (x : list Z) : list Z :=
  let upper_mask := 0xFFFFFFFF80000000 in
  let lower_mask := 0x7FFFFFFF in
  for_range 0 312
    (fun k x =>
       let y := Z.lor (Z.land (word x k) upper_mask)
                      (Z.land (word x ((k + 1) mod 312)) lower_mask) in
       set_word x k
         (Z.lxor (Z.lxor (word x ((k + 156) mod 312)) (Z.shiftr y 1))
                 (if Z.odd y then 0xB5026F5AA96619E9 else 0)))
    x.

Definition temper (z : Z) : Z :=
  let z := Z.lxor z (Z.land (Z.shiftr z 29) 0x5555555555555555) in
  let z := Z.lxor z (Z.land (u64 (Z.shiftl z 17)) 0x71D67FFFEDA60000) in
  let z := Z.lxor z (Z.land (u64 (Z.shiftl z 37)) 0xFFF7EEE000000000) in
  Z.lxor z (Z.shiftr z 43).

Definition next (e : engine) : Z * engine :=
  let e := if M_p e >=? 312 then {| M_x := gen_rand (M_x e); M_p := 0 |} else e in
  (temper (word (M_x e) (M_p e)), {| M_x := M_x e; M_p := M_p e + 1 |}).

Definition draw32 (e : engine) : Z * engine :=
  let '(z, e') := next e in (Z.shiftr z 32, e').

(** The [k]-th draw of the engine, counted from 1. *)
Fixpoint nth_draw (k : nat) (e : engine) : Z :=
  match k with
  | O => 0
  | Datatypes.S O => fst (next e)
  | Datatypes.S k' => nth_draw k' (snd (next e))
  end.

End MT64.

#[export] Instance mt19937_64 : RandomSource :=
  {| rng := MT64.engine; rng_init := MT64.seed; dist32 := MT64.draw32 |}.

(** ** Notions the properties are stated with *)

(** The 16-bit universe, in increasing order. *)
Definition universe16 : list Z := map Z.of_nat (seq 0 (Z.to_nat (2 ^ 16))).

(** The values [i, i+1, ...], [fuel] of them: the universe again, in a form
    that evaluates fast. *)
Fixpoint count_from (fuel : nat) (i : Z) : list Z :=
  match fuel with
  | O => []
  | Datatypes.S fuel' => i :: count_from fuel' (i + 1)
  end.

(** The split of a 16-bit value in two bytes and the recombination, as
    [prp16] does them before and after its loop. *)
Definition split16 (x : Z) : Z * Z := (u8 (Z.shiftr x 8), u8 (Z.land x 0xFF)).
Definition join16 (LR : Z * Z) : Z :=
  u16 (Z.lor (u16 (Z.shiftl (u16 (fst LR)) 8)) (u16 (snd LR))).

Definition is_u8_pair (LR : Z * Z) : Prop := is_u8 (fst LR) /\ is_u8 (snd LR).

(** The inverse permutation.  It is not in the source: the Feistel rounds
    are undone in reverse order. *)
Definition feistel_unround (key r : Z) (LR : Z * Z) : Z * Z :=
  let '(L', R') := LR in
  (u8 (Z.lxor R' (F L' key r)), L').

Definition prp16_inv (y key : Z) : Z :=
  let L := u8 (Z.shiftr y 8) in
  let R := u8 (Z.land y 0xFF) in
  let '(L, R) :=
    feistel_unround key 0 (feistel_unround key 1
      (feistel_unround key 2 (feistel_unround key 3 (L, R)))) in
  u16 (Z.lor (u16 (Z.shiftl (u16 L) 8)) (u16 R)).

(** The test of [hasValue] on an output of the permutation. *)
Definition msb_clear (y : Z) : bool := Z.land y 0x8000 =? 0.

(** The number of values of a block that satisfy the membership predicate
    under a key, and the number of those that do not. *)
Definition count_members (key : Z) (block : list Z) : Z :=
  Z.of_nat (length (filter (hasValue key) block)).

Definition count_others (key : Z) (block : list Z) : Z :=
  Z.of_nat (length (filter (fun x => negb (hasValue key x)) block)).

(** The blocks whose length is an [int]. *)
Definition int_sized (block : list Z) : Prop := Z.of_nat (length block) <= INT_MAX.

(** The scorer with the sense of the membership predicate flipped: the
    code of [score_list] where [s] counts the values for which [hasValue]
    is false. *)
Definition score_list_negated (listID : Z) (data : list Z) : Z :=
  let n := Z.of_nat (length data) in
  let s :=
    for_range 0 n
      (fun i s => to_int (s + (if negb (hasValue listID (nth (Z.to_nat i) data 0)) then 1 else 0)))
      0 in
  Z.max s (to_int (to_int n - s)).

(** The body of the counting loop of [score_list], for any predicate on
    the values. *)
Definition tally_body (p : Z -> bool) (data : list Z) (i s : Z) : Z :=
  to_int (s + (if p (nth (Z.to_nat i) data 0) then 1 else 0)).

(** The update of [res] by the outcome [(id, sc)] of one hillclimb. *)
Definition keep_best (res : SearchResult) (out : Z * Z) : SearchResult :=
  if snd out >? bestScore res
  then {| bestID := fst out; bestScore := snd out |}
  else res.

(** *** The hillclimb as the design document words it

    A state is a pair (current key, current score).  [bit_scan block b st
    flips st'] scans the bit positions [b..31] in order from the state [st]:
    at each position the score of the current key with that bit flipped is
    taken; the flipped key is adopted exactly when that score is strictly
    greater than the current score.  [flips] lists the positions adopted. *)

Definition flip_bit (key b : Z) : Z := Z.lxor key (u32 (Z.shiftl 1 b)).

Inductive bit_scan (block : list Z) : Z -> Z * Z -> list Z -> Z * Z -> Prop :=
| scan_end : forall st, bit_scan block 32 st [] st
| scan_adopt : forall b key sc flips st',
    0 <= b < 32 ->
    sc < score_list (flip_bit key b) block ->
    bit_scan block (b + 1) (flip_bit key b, score_list (flip_bit key b) block) flips st' ->
    bit_scan block b (key, sc) (b :: flips) st'
| scan_keep : forall b key sc flips st',
    0 <= b < 32 ->
    score_list (flip_bit key b) block <= sc ->
    bit_scan block (b + 1) (key, sc) flips st' ->
    bit_scan block b (key, sc) flips st'.

(** [climb_passes block n st out]: at most [n] passes from [st] end in
    [out]; the passes stop after the first one that adopts no flip. *)
Inductive climb_passes (block : list Z) : nat -> Z * Z -> Z * Z -> Prop :=
| passes_exhausted : forall st, climb_passes block O st st
| passes_converged : forall n st st',
    bit_scan block 0 st [] st' ->
    climb_passes block (Datatypes.S n) st st'
| passes_continue : forall n st flips st' out,
    bit_scan block 0 st flips st' ->
    flips <> [] ->
    climb_passes block n st' out ->
    climb_passes block (Datatypes.S n) st out.

Definition hillclimb_spec (block : list Z) (hillIters : Z) (start : Z) (out : Z * Z) : Prop :=
  climb_passes block (Z.to_nat hillIters) (start, score_list start block) out.

(** Whether a scan adopted a flip. *)
Definition adopted (flips : list Z) : bool :=
  match flips with [] => false | _ :: _ => true end.

(** The current score is the score of the current key. *)
Definition consistent (block : list Z) (c : climb) : Prop :=
  curScore c = score_list (cur c) block.

Section SearchRuns.

Context {RS : RandomSource}.

(** *** The loop over the restarts as a machine

    A configuration holds the counter [r], the engine and [res]. *)
Record machine : Type := {
  m_r : Z;
  m_rng : rng;
  m_res : SearchResult
}.

Inductive search_step (block : list Z) (cfg : SearchConfig) : machine -> machine -> Prop :=
| step_restart : forall m drawn g' id sc,
    m_r m < restarts cfg ->
    dist32 (m_rng m) = (drawn, g') ->
    hillclimb block cfg (u32 drawn) = (id, sc) ->
    search_step block cfg m
      {| m_r := m_r m + 1;
         m_rng := g';
         m_res := if sc >? bestScore (m_res m)
                  then {| bestID := id; bestScore := sc |}
                  else m_res m |}.

Inductive search_run (block : list Z) (cfg : SearchConfig) : machine -> SearchResult -> Prop :=
| run_return : forall m,
    restarts cfg <= m_r m ->
    search_run block cfg m (m_res m)
| run_step : forall m m' out,
    search_step block cfg m m' ->
    search_run block cfg m' out ->
    search_run block cfg m out.

(** A run of [searchBestListID block cfg rngSeed] returns [out]. *)
Definition search_returns (block : list Z) (cfg : SearchConfig) (rngSeed : Z)
    (out : SearchResult) : Prop :=
  search_run block cfg
    {| m_r := 0; m_rng := rng_init rngSeed; m_res := default_result |} out.

(** The outcomes [(id, sc)] of the hillclimbs of the first [n] restarts, in
    the order of the restarts. *)
Fixpoint restart_outcomes (block : list Z) (cfg : SearchConfig) (n : nat) (g : rng)
    : list (Z * Z) :=
  match n with
  | O => []
  | Datatypes.S n' =>
      let '(drawn, g') := dist32 g in
      hillclimb block cfg (u32 drawn) :: restart_outcomes block cfg n' g'
  end.

End SearchRuns.

(** *** Inputs for running the code *)

Definition sample_block : list Z := [0; 1; 2; 3; 4; 5; 6; 7; 8; 9; 10; 11].

Definition sample_config : SearchConfig :=
  {| restarts := 3; hillIters := 2; tryAllBits := true |}.

Definition no_restart_config : SearchConfig :=
  {| restarts := 0; hillIters := 6; tryAllBits := true |}.

(** ** The rest of the program *)

(** A key none of whose 32 single-bit flips has a strictly greater score
    on the block. *)
Definition local_optimum (block : list Z) (key : Z) : Prop :=
  forall b, 0 <= b < 32 -> score_list (flip_bit key b) block <= score_list key block.

Section SearchDraws.

Context {RS : RandomSource}.

(** The starting keys of the first [n] restarts, in the order of the
    restarts. *)
Fixpoint restart_starts (n : nat) (g : rng) : list Z :=
  match n with
  | O => []
  | Datatypes.S n' =>
      let '(drawn, g') := dist32 g in
      u32 drawn :: restart_starts n' g'
  end.

End SearchDraws.

(** *** File helper: read as uint16_t LE *)

(** [v[i]] and [v[i] = x] on a vector, and [v.resize(n)]. *)
Definition elem (v : list Z) (i : Z) : Z := nth (Z.to_nat i) v 0.

Definition store (v : list Z) (i x : Z) : list Z := MT64.set_nth v (Z.to_nat i) x.

Definition resize (v : list Z) (n : Z) : list Z :=
  firstn (Z.to_nat n) v ++ repeat 0 (Z.to_nat n - length v).

(** The body of the loop of [read_u16_le_file]. *)
Definition read_pair (bytes : list Z) (i : Z) (out : list Z) : list Z :=
  store out i
    (u16 (Z.lor (u16 (elem bytes (2 * i)))
                (Z.shiftl (u16 (elem bytes (2 * i + 1))) 8))).

(** The file system is a function from paths to the characters of the file
    at the path, [None] where the stream cannot be opened.  The result is
    the boolean returned and the vector [out] as the call leaves it. *)
Definition read_u16_le_file (fs : String.string -> option (list Z))
    (path : String.string) (out : list Z) : bool * list Z :=
  match fs path with
  | None => (false, out)
  | Some chars =>
      let bytes := map u8 chars in
      let n := Z.of_nat (length bytes) / 2 in
      let out := resize out n in
      (true, for_range 0 n (read_pair bytes) out)
  end.

(** The two bytes of a 16-bit value, low byte first. *)
Definition u16_le_bytes (v : Z) : list Z := [Z.land v 0xFF; Z.shiftr v 8].

(** *** The loop of [main] over the blocks *)

(** The vector built from the iterator range [v.begin() + first,
    v.begin() + last). *)
Definition slice (v : list Z) (first last : Z) : list Z :=
  firstn (Z.to_nat (last - first)) (skipn (Z.to_nat first) v).

(** The configuration [main] searches with. *)
Definition main_config : SearchConfig :=
  {| restarts := 250; hillIters := 8; tryAllBits := true |}.

(** The block of index [bi]. *)
Definition main_block (data : list Z) (blockLen bi : Z) : list Z :=
  slice data (u64 (bi * blockLen)) (u64 ((bi + 1) * blockLen)).

Section Main.

Context {RS : RandomSource}.

(** The state of the loop: [bestEver], [bestEverID] and the lines printed,
    one pair (block index, result) per block.  The running sum
    [avgScore] is a [double] and is left out. *)
Record main_state : Type := {
  bestEver : Z;
  bestEverID : Z;
  printed : list (Z * SearchResult)
}.

Definition main_body (data : list Z) (blockLen : Z) (bi : Z) (st : main_state)
    : main_state :=
  let block := main_block data blockLen bi in
  let r := searchBestListID block main_config (u64 (default_seed + bi)) in
  let lines := printed st ++ [(bi, r)] in
  if bestScore r >? bestEver st
  then {| bestEver := bestScore r; bestEverID := bestID r; printed := lines |}
  else {| bestEver := bestEver st; bestEverID := bestEverID st; printed := lines |}.

(** The loop, for a block length that is not 0 (the division is by
    [blockLen]). *)
Definition main_blocks (data : list Z) (blockLen blocksToTest : Z) : main_state :=
  let maxBlocks := Z.min blocksToTest (Z.of_nat (length data) / blockLen) in
  for_range 0 maxBlocks (main_body data blockLen)
    {| bestEver := -1; bestEverID := 0; printed := [] |}.

End Main.

(** A configuration with more passes than half the length of
    [sample_block]. *)
Definition thorough_config : SearchConfig :=
  {| restarts := 2; hillIters := 7; tryAllBits := true |}.

(** [sample_config] with more restarts, and with the flag [tryAllBits]
    cleared. *)
Definition main_like_config : SearchConfig :=
  {| restarts := 5; hillIters := 2; tryAllBits := true |}.

Definition subset_config : SearchConfig :=
  {| restarts := 3; hillIters := 2; tryAllBits := false |}.

(** A configuration without hillclimb passes. *)
Definition random_config : SearchConfig :=
  {| restarts := 4; hillIters := 0; tryAllBits := true |}.

(** The value [read_pair] stores at index [i]. *)
Definition pair_value (bytes : list Z) (i : Z) : Z :=
  u16 (Z.lor (u16 (elem bytes (2 * i))) (Z.shiftl (u16 (elem bytes (2 * i + 1))) 8)).

(** A file system with one file. *)
Definition one_file (name : String.string) (chars : list Z)
    : String.string -> option (list Z) :=
  fun path => if String.eqb path name then Some chars else None.

Section MainLines.

Context {RS : RandomSource}.

(** The line [main] prints for the block of index [bi]. *)
Definition main_line (data : list Z) (blockLen bi : Z) : Z * SearchResult :=
  (bi, searchBestListID (main_block data blockLen bi) main_config (u64 (default_seed + bi))).

(** [bestEver] and [bestEverID] as a result. *)
Definition best_of (st : main_state) : SearchResult :=
  {| bestID := bestEverID st; bestScore := bestEver st |}.

End MainLines.

(** A path and a file of three characters for the examples. *)
Module Sample.
Import String.
Definition path : string := "data.bin"%string.
Definition chars : list Z := [0x34; 0x12; 0xFF].
End Sample.

(** Ten values for the loop of [main]. *)
Definition sample_data : list Z := [0; 1; 2; 3; 4; 5; 6; 7; 8; 9].

(** *** Blocks longer than an [int] can count *)

(** 2^31 values, one more than [INT_MAX]. *)
Definition beyond_int : nat := Z.to_nat (2 ^ 31).

(** 2^31 copies of the value 1, which is not a member under the key 0. *)
Definition non_members_block : list Z := repeat 1 beyond_int.



(** The state after [k] passes of the hillclimb from [st], were the loop
    over the passes never left early. *)
Fixpoint after_passes (block : list Z) (k : nat) (st : Z * Z) : Z * Z :=
  match k with
  | O => st
  | Datatypes.S k' => after_passes block k' (fst (climb_pass block 0 st))
  end.

(** ** The code on concrete inputs *)

Example prp16_values :
  prp16 0 0 = 0 /\ prp16 1 0 = 47333 /\ prp16 0 1 = 12514 /\
  prp16 0x1234 0xDEADBEEF = 37319 /\ prp16 0xFFFF 0xFFFFFFFF = 65535.
Proof. vm_compute. repeat split. Qed.

Example hasValue_values :
  hasValue 0 0 = true /\ hasValue 0 1 = false /\ hasValue 0xDEADBEEF 0x1234 = false.
Proof. vm_compute. repeat split. Qed.

Example score_list_values :
  score_list 0 [0; 1; 2; 3; 4; 5; 6; 7] = 5 /\ score_list 0 [] = 0 /\
  score_list 779670154 [5; 9; 700; 65535; 31] = 4.
Proof. vm_compute. repeat split. Qed.

(** The check value of the C++ standard for [std::mt19937_64]: the 10000th
    draw of the engine seeded with 5489. *)
Example mt19937_64_check :
  MT64.nth_draw (Z.to_nat 10000) (MT64.seed 5489) = 9981545732273789042.
Proof. vm_compute. reflexivity. Qed.

Example searchBestListID_values :
  searchBestListID sample_block sample_config default_seed =
    {| bestID := 4184828999; bestScore := 10 |} /\
  searchBestListID [5; 9; 700; 65535; 31]
      {| restarts := 1; hillIters := 0; tryAllBits := true |} default_seed =
    {| bestID := 779670154; bestScore := 4 |}.
Proof. vm_compute. split; reflexivity. Qed.
(** ** Bytes and halves *)

Section Bytes.

Lemma u8_is_u8 z : is_u8 (u8 z).
Proof. unfold is_u8, u8. apply Z.mod_pos_bound. reflexivity. Qed.

Lemma u8_small z : is_u8 z -> u8 z = z.
Proof. unfold is_u8, u8. intros H. now apply Z.mod_small. Qed.

Lemma u16_small z : is_u16 z -> u16 z = z.
Proof. unfold is_u16, u16. intros H. now apply Z.mod_small. Qed.

Lemma is_u8_high_bits z n : is_u8 z -> 8 <= n -> Z.testbit z n = false.
Proof.
  intros Hz Hn. rewrite <- (u8_small z Hz). unfold u8.
  apply Z.mod_pow2_bits_high. lia.
Qed.

Lemma high_bits_is_u8 z :
  0 <= z -> (forall n, 8 <= n -> Z.testbit z n = false) -> is_u8 z.
Proof.
  intros Hz Hbits.
  assert (E : z mod 2 ^ 8 = z).
  { apply Z.bits_inj'. intros n Hn.
    destruct (Z_lt_ge_dec n 8) as [Hlt | Hge].
    - now apply Z.mod_pow2_bits_low.
    - rewrite Z.mod_pow2_bits_high by lia. symmetry. apply Hbits. lia. }
  rewrite <- E. apply u8_is_u8.
Qed.

Lemma lxor_is_u8 a b : is_u8 a -> is_u8 b -> is_u8 (Z.lxor a b).
Proof.
  intros Ha Hb. apply high_bits_is_u8.
  - apply Z.lxor_nonneg. unfold is_u8 in *. lia.
  - intros n Hn. rewrite Z.lxor_spec.
    now rewrite (is_u8_high_bits a n Ha Hn), (is_u8_high_bits b n Hb Hn).
Qed.

Lemma lxor_cancel_r a b : Z.lxor (Z.lxor a b) b = a.
Proof. now rewrite Z.lxor_assoc, Z.lxor_nilpotent, Z.lxor_0_r. Qed.

Lemma F_is_u8 r k round : is_u8 (F r k round).
Proof. unfold F. apply u8_is_u8. Qed.

(** The high byte and the low byte of a 16-bit value, as [prp16] takes
    them. *)
Lemma high_byte x : is_u16 x -> u8 (Z.shiftr x 8) = x / 256.
Proof.
  unfold is_u16, u8. intros H. rewrite Z.shiftr_div_pow2 by lia.
  change (2 ^ 8) with 256. change (2 ^ 16) with 65536 in H.
  apply Z.mod_small. split.
  - apply Z.div_pos; lia.
  - apply Z.div_lt_upper_bound; lia.
Qed.

Lemma low_byte x : u8 (Z.land x 0xFF) = x mod 256.
Proof.
  unfold u8. change 0xFF with (Z.ones 8). rewrite Z.land_ones by lia.
  change (2 ^ 8) with 256. rewrite Z.mod_mod; lia.
Qed.

(** The recombination [(L << 8) | R] of two bytes. *)
Lemma join_bytes L R :
  is_u8 L -> is_u8 R ->
  u16 (Z.lor (u16 (Z.shiftl (u16 L) 8)) (u16 R)) = L * 256 + R.
Proof.
  intros HL HR.
  assert (HL' := HL). assert (HR' := HR).
  unfold is_u8 in HL', HR'. change (2 ^ 8) with 256 in HL', HR'.
  rewrite (u16_small L), (u16_small R)
    by (unfold is_u16; change (2 ^ 16) with 65536; lia).
  rewrite Z.shiftl_mul_pow2 by lia. change (2 ^ 8) with 256.
  rewrite (u16_small (L * 256))
    by (unfold is_u16; change (2 ^ 16) with 65536; lia).
  assert (Hland : Z.land (L * 256) R = 0).
  { apply Z.bits_inj'. intros n Hn. rewrite Z.land_spec, Z.bits_0.
    destruct (Z_lt_ge_dec n 8) as [Hlt | Hge].
    - change 256 with (2 ^ 8). rewrite Z.mul_pow2_bits_low by lia. reflexivity.
    - rewrite (is_u8_high_bits R n HR) by lia. apply andb_false_r. }
  pose proof (Z.add_lor_land (L * 256) R) as Hadd.
  rewrite Hland, Z.add_0_r in Hadd. rewrite Hadd.
  apply u16_small. unfold is_u16. change (2 ^ 16) with 65536. lia.
Qed.

End Bytes.

(** ** The Feistel network is a permutation *)

Section Feistel.

Variable key : Z.

Lemma feistel_round_pair r LR : is_u8_pair LR -> is_u8_pair (feistel_round key r LR).
Proof.
  destruct LR as [L R]. intros [_ HR]. split; simpl; [exact HR | apply u8_is_u8].
Qed.

Lemma feistel_unround_pair r LR : is_u8_pair LR -> is_u8_pair (feistel_unround key r LR).
Proof.
  destruct LR as [L R]. intros [HL _]. split; simpl; [apply u8_is_u8 | exact HL].
Qed.

Lemma feistel_unround_round r LR :
  is_u8_pair LR -> feistel_unround key r (feistel_round key r LR) = LR.
Proof.
  destruct LR as [L R]. intros [HL HR]. simpl in HL, HR. simpl.
  rewrite (u8_small (Z.lxor L _)) by (apply lxor_is_u8; [exact HL | apply F_is_u8]).
  now rewrite lxor_cancel_r, u8_small.
Qed.

Lemma feistel_round_unround r LR :
  is_u8_pair LR -> feistel_round key r (feistel_unround key r LR) = LR.
Proof.
  destruct LR as [L R]. intros [HL HR]. simpl in HL, HR. simpl.
  rewrite (u8_small (Z.lxor R _)) by (apply lxor_is_u8; [exact HR | apply F_is_u8]).
  now rewrite lxor_cancel_r, u8_small.
Qed.

(** The four turns of the loop, written out. *)
Lemma for_range_0_4 (S : Type) (body : Z -> S -> S) (s : S) :
  for_range 0 4 body s = body 3 (body 2 (body 1 (body 0 s))).
Proof. reflexivity. Qed.

Lemma prp16_rounds x :
  prp16 x key =
  join16 (feistel_round key 3 (feistel_round key 2
           (feistel_round key 1 (feistel_round key 0 (split16 x))))).
Proof.
  unfold prp16. rewrite for_range_0_4. unfold split16, join16.
  now destruct (feistel_round key 3 _).
Qed.

Lemma prp16_inv_rounds y :
  prp16_inv y key =
  join16 (feistel_unround key 0 (feistel_unround key 1
           (feistel_unround key 2 (feistel_unround key 3 (split16 y))))).
Proof.
  unfold prp16_inv, split16, join16. now destruct (feistel_unround key 0 _).
Qed.

Lemma split16_pair x : is_u8_pair (split16 x).
Proof. split; apply u8_is_u8. Qed.

Lemma join16_is_u16 LR : is_u16 (join16 LR).
Proof. unfold join16, is_u16, u16. apply Z.mod_pos_bound. reflexivity. Qed.

Lemma join16_split16 x : is_u16 x -> join16 (split16 x) = x.
Proof.
  intros Hx. unfold join16, split16. cbn [fst snd].
  rewrite join_bytes by apply u8_is_u8.
  rewrite high_byte by exact Hx. rewrite low_byte.
  pose proof (Z.div_mod x 256). lia.
Qed.

Lemma split16_join16 LR : is_u8_pair LR -> split16 (join16 LR) = LR.
Proof.
  destruct LR as [L R]. intros [HL HR]. simpl in HL, HR.
  unfold join16. cbn [fst snd]. rewrite join_bytes by assumption.
  unfold split16. unfold is_u8 in HL, HR. change (2 ^ 8) with 256 in HL, HR.
  rewrite high_byte by (unfold is_u16; change (2 ^ 16) with 65536; lia).
  rewrite low_byte. f_equal.
  - symmetry. apply (Z.div_unique _ _ _ R); lia.
  - symmetry. apply (Z.mod_unique _ _ L); lia.
Qed.

Lemma prp16_is_u16 x : is_u16 (prp16 x key).
Proof. rewrite prp16_rounds. apply join16_is_u16. Qed.

Lemma prp16_inv_is_u16 y : is_u16 (prp16_inv y key).
Proof. rewrite prp16_inv_rounds. apply join16_is_u16. Qed.

Lemma prp16_inv_prp16 x : is_u16 x -> prp16_inv (prp16 x key) key = x.
Proof.
  intros Hx. rewrite prp16_inv_rounds, prp16_rounds.
  pose proof (split16_pair x) as H0.
  pose proof (feistel_round_pair 0 _ H0) as H1.
  pose proof (feistel_round_pair 1 _ H1) as H2.
  pose proof (feistel_round_pair 2 _ H2) as H3.
  pose proof (feistel_round_pair 3 _ H3) as H4.
  rewrite split16_join16 by exact H4.
  rewrite !feistel_unround_round by assumption.
  now apply join16_split16.
Qed.

Lemma prp16_prp16_inv y : is_u16 y -> prp16 (prp16_inv y key) key = y.
Proof.
  intros Hy. rewrite prp16_rounds, prp16_inv_rounds.
  pose proof (split16_pair y) as H4.
  pose proof (feistel_unround_pair 3 _ H4) as H3.
  pose proof (feistel_unround_pair 2 _ H3) as H2.
  pose proof (feistel_unround_pair 1 _ H2) as H1.
  pose proof (feistel_unround_pair 0 _ H1) as H0.
  rewrite split16_join16 by exact H0.
  rewrite !feistel_round_unround by assumption.
  now apply join16_split16.
Qed.

Lemma prp16_injective x x' :
  is_u16 x -> is_u16 x' -> prp16 x key = prp16 x' key -> x = x'.
Proof.
  intros Hx Hx' E.
  rewrite <- (prp16_inv_prp16 x Hx), <- (prp16_inv_prp16 x' Hx'). now rewrite E.
Qed.

End Feistel.

(** ** The universe as a list *)

Lemma universe16_length : Z.of_nat (length universe16) = 65536.
Proof.
  unfold universe16. rewrite length_map, length_seq. now rewrite Z2Nat.id.
Qed.

Lemma in_universe16 x : In x universe16 <-> is_u16 x.
Proof.
  unfold universe16, is_u16. rewrite in_map_iff. split.
  - intros (n & <- & Hn). apply in_seq in Hn.
    rewrite Nat.add_0_l in Hn. destruct Hn as [_ Hn].
    apply Nat2Z.inj_lt in Hn. rewrite Z2Nat.id in Hn by (apply Z.pow_nonneg; lia). lia.
  - intros [H0 H1]. exists (Z.to_nat x). split; [now apply Z2Nat.id |].
    apply in_seq. split; [lia |]. rewrite Nat.add_0_l. now apply Z2Nat.inj_lt.
Qed.

Lemma universe16_NoDup : NoDup universe16.
Proof.
  unfold universe16. apply NoDup_map_NoDup_ForallPairs; [| apply seq_NoDup].
  intros a b _ _ E. now apply Nat2Z.inj.
Qed.

Lemma prp16_universe_NoDup key : NoDup (map (fun x => prp16 x key) universe16).
Proof.
  apply NoDup_map_NoDup_ForallPairs; [| apply universe16_NoDup].
  intros a b Ha Hb E. apply in_universe16 in Ha, Hb.
  now apply (prp16_injective key).
Qed.

Lemma prp16_universe_Permutation key :
  Permutation (map (fun x => prp16 x key) universe16) universe16.
Proof.
  apply NoDup_Permutation; [apply prp16_universe_NoDup | apply universe16_NoDup |].
  intros y. rewrite in_map_iff, in_universe16. split.
  - intros (x & <- & _). apply prp16_is_u16.
  - intros Hy. exists (prp16_inv y key). split.
    + now apply prp16_prp16_inv.
    + apply in_universe16, prp16_inv_is_u16.
Qed.

(** C1. For every key, [prp16 (.) key] is a bijection of the 16-bit universe:
    it maps 16-bit values to 16-bit values, distinct inputs to distinct
    outputs, every 16-bit value is an output, and the list of its 65536
    outputs over the whole universe has no repetition. *)
Theorem prp16_bijection :
  forall key : Z,
    (forall x, is_u16 x -> is_u16 (prp16 x key)) /\
    (forall x x', is_u16 x -> is_u16 x' -> prp16 x key = prp16 x' key -> x = x') /\
    (forall y, is_u16 y -> exists x, is_u16 x /\ prp16 x key = y) /\
    Z.of_nat (length (map (fun x => prp16 x key) universe16)) = 65536 /\
    NoDup (map (fun x => prp16 x key) universe16).
Proof.
  intros key. split; [| split; [| split; [| split]]].
  - intros x _. apply prp16_is_u16.
  - apply prp16_injective.
  - intros y Hy. exists (prp16_inv y key).
    split; [apply prp16_inv_is_u16 | now apply prp16_prp16_inv].
  - rewrite length_map. apply universe16_length.
  - apply prp16_universe_NoDup.
Qed.

(** ** The 50/50 split *)

Lemma filter_length_Permutation (A : Type) (p : A -> bool) (l l' : list A) :
  Permutation l l' -> length (filter p l) = length (filter p l').
Proof.
  induction 1 as [| a l l' _ IH | a b l | l l' l'' _ IH1 _ IH2]; simpl.
  - reflexivity.
  - destruct (p a); simpl; congruence.
  - destruct (p a), (p b); reflexivity.
  - congruence.
Qed.

Lemma filter_length_negb (A : Type) (p : A -> bool) (l : list A) :
  (length (filter p l) + length (filter (fun a => negb (p a)) l) = length l)%nat.
Proof.
  induction l as [| a l IH]; simpl; [reflexivity |].
  destruct (p a); simpl; lia.
Qed.

Lemma count_from_seq n a : map Z.of_nat (seq a n) = count_from n (Z.of_nat a).
Proof.
  revert a. induction n as [| n IH]; intros a; simpl; [reflexivity |].
  rewrite IH. do 2 f_equal. lia.
Qed.

Lemma msb_clear_universe16 : Z.of_nat (length (filter msb_clear universe16)) = 32768.
Proof.
  unfold universe16. rewrite count_from_seq. vm_compute. reflexivity.
Qed.

Lemma hasValue_msb_clear key x : hasValue key x = msb_clear (prp16 x key).
Proof. reflexivity. Qed.

Lemma hasValue_members key :
  length (filter (hasValue key) universe16) = length (filter msb_clear universe16).
Proof.
  rewrite <- (filter_length_Permutation Z msb_clear _ _ (prp16_universe_Permutation key)).
  rewrite filter_map_swap, length_map.
  now rewrite (filter_ext _ _ (hasValue_msb_clear key)).
Qed.

(** C2. For every key, exactly 32768 of the 65536 values of the universe
    satisfy [hasValue key], and the other 32768 do not. *)
Theorem hasValue_half :
  forall key : Z,
    Z.of_nat (length universe16) = 65536 /\
    Z.of_nat (length (filter (hasValue key) universe16)) = 32768 /\
    Z.of_nat (length (filter (fun x => negb (hasValue key x)) universe16)) = 32768.
Proof.
  intros key.
  pose proof universe16_length as Hu.
  pose proof (filter_length_negb Z (hasValue key) universe16) as Hsum.
  pose proof (hasValue_members key) as Hm.
  pose proof msb_clear_universe16 as Hc.
  rewrite <- Hm in Hc. clear Hm.
  generalize dependent (length (filter (hasValue key) universe16)).
  generalize dependent (length (filter (fun a => negb (hasValue key a)) universe16)).
  generalize dependent (length universe16).
  intros. lia.
Qed.

(** ** The scorer *)

Section IntArith.

Lemma to_int_small z : - 2 ^ 31 <= z <= INT_MAX -> to_int z = z.
Proof.
  unfold to_int, INT_MAX. intros H.
  rewrite Z.mod_small; lia.
Qed.

Lemma to_int_range z : - 2 ^ 31 <= to_int z <= INT_MAX.
Proof.
  unfold to_int, INT_MAX.
  pose proof (Z.mod_pos_bound (z + 2 ^ 31) (2 ^ 32) eq_refl). lia.
Qed.

(** [to_int] sees its argument modulo 2^32 only. *)
Lemma to_int_congr a b k : a = b + k * 2 ^ 32 -> to_int a = to_int b.
Proof.
  intros ->. unfold to_int.
  replace (b + k * 2 ^ 32 + 2 ^ 31) with (b + 2 ^ 31 + k * 2 ^ 32) by ring.
  now rewrite Z_mod_plus_full.
Qed.

Lemma to_int_decomp z : exists k, to_int z = z + k * 2 ^ 32.
Proof.
  unfold to_int. exists (- ((z + 2 ^ 31) / 2 ^ 32)).
  pose proof (Z.div_mod (z + 2 ^ 31) (2 ^ 32)). lia.
Qed.

Lemma to_int_add_l a b : to_int (to_int a + b) = to_int (a + b).
Proof.
  destruct (to_int_decomp a) as [k ->].
  apply (to_int_congr _ _ k). ring.
Qed.

Lemma to_int_sub a b : to_int (to_int a - to_int b) = to_int (a - b).
Proof.
  destruct (to_int_decomp a) as [k ->]. destruct (to_int_decomp b) as [k' ->].
  apply (to_int_congr _ _ (k - k')). ring.
Qed.

End IntArith.

Section Tally.

(** The counting loop of [score_list], for any predicate on the values. *)
Variable p : Z -> bool.

Lemma tally_loop pre l c :
  for_loop (length l) (Z.of_nat (length pre)) (tally_body p (pre ++ l)) (to_int c) =
  to_int (c + Z.of_nat (length (filter p l))).
Proof.
  revert pre c. induction l as [| x l IH]; intros pre c.
  - simpl. now rewrite Z.add_0_r.
  - cbn [length for_loop filter].
    assert (Hnth : nth (Z.to_nat (Z.of_nat (length pre))) (pre ++ x :: l) 0 = x).
    { rewrite Nat2Z.id. apply nth_middle. }
    unfold tally_body at 2. rewrite Hnth, to_int_add_l.
    replace (pre ++ x :: l) with ((pre ++ [x]) ++ l) by now rewrite <- app_assoc.
    replace (Z.of_nat (length pre) + 1) with (Z.of_nat (length (pre ++ [x])))
      by (rewrite length_app; simpl; lia).
    rewrite IH. f_equal.
    destruct (p x); cbn [length]; lia.
Qed.

Lemma tally_count data :
  for_range 0 (Z.of_nat (length data)) (tally_body p data) 0 =
  to_int (Z.of_nat (length (filter p data))).
Proof.
  unfold for_range. rewrite Z.sub_0_r, Nat2Z.id.
  pose proof (tally_loop [] data 0) as H. cbn [length app] in H.
  change (Z.of_nat 0) with 0 in H. rewrite (to_int_small 0) in H by (unfold INT_MAX; lia).
  exact H.
Qed.

Lemma filter_all l :
  length (filter p l) = length l <-> (forall x, In x l -> p x = true).
Proof.
  induction l as [| a l IH]; simpl.
  - split; [intros _ x [] | reflexivity].
  - pose proof (filter_length_le p l) as Hle.
    destruct (p a) eqn:Ea; simpl; split.
    + intros H x [<- | Hx]; [exact Ea |]. apply IH; [lia | exact Hx].
    + intros H. f_equal. apply IH. intros x Hx. apply H. now right.
    + intros H. lia.
    + intros H. specialize (H a (or_introl eq_refl)). congruence.
Qed.

Lemma filter_none l :
  length (filter p l) = O <-> (forall x, In x l -> p x = false).
Proof.
  induction l as [| a l IH]; simpl.
  - split; [intros _ x [] | reflexivity].
  - destruct (p a) eqn:Ea; simpl; split.
    + intros H. discriminate.
    + intros H. specialize (H a (or_introl eq_refl)). congruence.
    + intros H x [<- | Hx]; [exact Ea |]. now apply IH.
    + intros H. apply IH. intros x Hx. apply H. now right.
Qed.

End Tally.

Lemma count_members_others key block :
  count_members key block + count_others key block = Z.of_nat (length block).
Proof.
  unfold count_members, count_others.
  pose proof (filter_length_negb Z (hasValue key) block). lia.
Qed.

Lemma count_members_range key block :
  0 <= count_members key block <= Z.of_nat (length block).
Proof.
  unfold count_members. pose proof (filter_length_le (hasValue key) block). lia.
Qed.

(** The scorer in terms of the two counts, whatever the length of the
    block. *)
Lemma score_list_counts key block :
  score_list key block =
  Z.max (to_int (count_members key block)) (to_int (count_others key block)).
Proof.
  unfold score_list.
  change (for_range 0 (Z.of_nat (length block)) _ 0)
    with (for_range 0 (Z.of_nat (length block)) (tally_body (hasValue key) block) 0).
  rewrite tally_count, to_int_sub. fold (count_members key block).
  do 2 f_equal. pose proof (count_members_others key block). lia.
Qed.

Lemma score_list_negated_counts key block :
  score_list_negated key block =
  Z.max (to_int (count_others key block)) (to_int (count_members key block)).
Proof.
  unfold score_list_negated.
  change (for_range 0 (Z.of_nat (length block)) _ 0)
    with (for_range 0 (Z.of_nat (length block))
            (tally_body (fun x => negb (hasValue key x)) block) 0).
  rewrite tally_count, to_int_sub. fold (count_others key block).
  do 2 f_equal. pose proof (count_members_others key block). lia.
Qed.

Lemma score_list_int_sized key block :
  int_sized block ->
  score_list key block =
  Z.max (count_members key block) (Z.of_nat (length block) - count_members key block).
Proof.
  unfold int_sized. intros Hn.
  pose proof (count_members_range key block) as Hc.
  pose proof (count_members_others key block) as Hs.
  rewrite score_list_counts.
  rewrite !to_int_small by (unfold INT_MAX in *; lia).
  f_equal. lia.
Qed.

Lemma score_list_nonneg key block : int_sized block -> 0 <= score_list key block.
Proof.
  intros Hn. rewrite (score_list_int_sized key block Hn).
  pose proof (count_members_range key block). lia.
Qed.

(** C3. For a block of [n] values ([n] an [int]) and any key, the score is
    [max c (n - c)] where [c] counts the values of the block that satisfy
    the membership predicate; hence it lies between the ceiling of [n / 2]
    and [n], and it is [n] exactly when the predicate holds for every value
    of the block or fails for every value of the block. *)
Theorem score_list_max :
  forall (key : Z) (block : list Z),
    int_sized block ->
    score_list key block =
      Z.max (count_members key block)
            (Z.of_nat (length block) - count_members key block) /\
    ((Z.of_nat (length block) + 1) / 2 <= score_list key block
       <= Z.of_nat (length block)) /\
    (score_list key block = Z.of_nat (length block) <->
       (forall x, In x block -> hasValue key x = true) \/
       (forall x, In x block -> hasValue key x = false)).
Proof.
  intros key block Hn.
  pose proof (score_list_int_sized key block Hn) as Hs.
  pose proof (count_members_range key block) as Hc.
  split; [exact Hs |]. rewrite Hs. split.
  - split; [| lia].
    apply Z.lt_succ_r, Z.div_lt_upper_bound; lia.
  - rewrite <- (filter_all (hasValue key) block), <- (filter_none (hasValue key) block).
    unfold count_members in *. split.
    + intros H.
      destruct (Z.max_spec (Z.of_nat (length (filter (hasValue key) block)))
                  (Z.of_nat (length block) - Z.of_nat (length (filter (hasValue key) block))))
        as [[_ E] | [_ E]]; rewrite E in H; [right | left]; lia.
    + intros [H | H]; rewrite H; lia.
Qed.

(** C9. Counting the values for which [hasValue] is false instead of those
    for which it is true does not change the score, for any key and any
    block. *)
Theorem score_list_negation_invariant :
  forall (key : Z) (block : list Z),
    score_list_negated key block = score_list key block.
Proof.
  intros key block.
  rewrite score_list_negated_counts, score_list_counts. apply Z.max_comm.
Qed.

(** ** The hillclimb *)

Section Loops.

Context {S : Type}.

Lemma for_loop_invariant (P : S -> Prop) (body : Z -> S -> S) :
  (forall i s, P s -> P (body i s)) ->
  forall fuel i s, P s -> P (for_loop fuel i body s).
Proof.
  intros Hbody fuel. induction fuel as [| fuel IH]; intros i s Hs; simpl.
  - exact Hs.
  - apply IH, Hbody, Hs.
Qed.

Lemma for_loop_break_invariant (P : S -> Prop) (body : Z -> S -> S * bool) :
  (forall i s, P s -> P (fst (body i s))) ->
  forall fuel i s, P s -> P (for_loop_break fuel i body s).
Proof.
  intros Hbody fuel. induction fuel as [| fuel IH]; intros i s Hs; simpl.
  - exact Hs.
  - specialize (Hbody i s Hs). destruct (body i s) as [s' brk]. simpl in Hbody.
    destruct brk; [exact Hbody | now apply IH].
Qed.

Lemma for_range_none lo hi (body : Z -> S -> S) s :
  hi <= lo -> for_range lo hi body s = s.
Proof.
  intros H. unfold for_range. replace (Z.to_nat (hi - lo)) with O by lia. reflexivity.
Qed.

Lemma for_range_first lo hi (body : Z -> S -> S) s :
  lo < hi -> for_range lo hi body s = for_range (lo + 1) hi body (body lo s).
Proof.
  intros H. unfold for_range.
  replace (Z.to_nat (hi - lo)) with (Datatypes.S (Z.to_nat (hi - (lo + 1)))) by lia.
  reflexivity.
Qed.

End Loops.

Section Hillclimb.

Variable block : list Z.

Lemma try_bit_flip b c :
  try_bit block b c =
  if curScore c <? score_list (flip_bit (cur c) b) block
  then {| cur := flip_bit (cur c) b;
          curScore := score_list (flip_bit (cur c) b) block;
          improved := true |}
  else c.
Proof. unfold try_bit, flip_bit. now rewrite Z.gtb_ltb. Qed.

Lemma try_bit_consistent b c : consistent block c -> consistent block (try_bit block b c).
Proof.
  intros Hc. rewrite try_bit_flip.
  destruct (curScore c <? _); [reflexivity | exact Hc].
Qed.

Lemma try_bit_monotone b c : curScore c <= curScore (try_bit block b c).
Proof.
  rewrite try_bit_flip.
  destruct (Z.ltb_spec (curScore c) (score_list (flip_bit (cur c) b) block)); simpl; lia.
Qed.

Lemma bit_loop_monotone fuel b c :
  curScore c <= curScore (for_loop fuel b (try_bit block) c).
Proof.
  revert b c. induction fuel as [| fuel IH]; intros b c; simpl; [lia |].
  pose proof (try_bit_monotone b c). specialize (IH (b + 1) (try_bit block b c)). lia.
Qed.

Lemma climb_pass_monotone pass st : snd st <= snd (fst (climb_pass block pass st)).
Proof. unfold climb_pass. simpl. apply (bit_loop_monotone _ 0 (Build_climb _ _ _)). Qed.

Lemma climb_pass_consistent pass st :
  snd st = score_list (fst st) block ->
  snd (fst (climb_pass block pass st)) = score_list (fst (fst (climb_pass block pass st))) block.
Proof.
  intros Hst. unfold climb_pass. simpl.
  apply (for_loop_invariant (consistent block)); [intros i s; apply try_bit_consistent |].
  exact Hst.
Qed.

Lemma hillclimb_consistent cfg start :
  snd (hillclimb block cfg start) = score_list (fst (hillclimb block cfg start)) block.
Proof.
  unfold hillclimb, for_range_break.
  apply (for_loop_break_invariant (fun st => snd st = score_list (fst st) block)).
  - intros i s. apply climb_pass_consistent.
  - reflexivity.
Qed.

Lemma hillclimb_monotone cfg start :
  score_list start block <= snd (hillclimb block cfg start).
Proof.
  unfold hillclimb, for_range_break.
  apply (for_loop_break_invariant (fun st => score_list start block <= snd st)).
  - intros i s Hs. pose proof (climb_pass_monotone i s). lia.
  - simpl. lia.
Qed.

(** *** The code against the wording *)

(** A scan derived by the rules is the scan the loop computes. *)
Lemma bit_scan_loop b st flips st' :
  bit_scan block b st flips st' ->
  0 <= b ->
  forall imp,
    for_loop (Z.to_nat (32 - b)) b (try_bit block)
      {| cur := fst st; curScore := snd st; improved := imp |} =
    {| cur := fst st'; curScore := snd st'; improved := imp || adopted flips |}.
Proof.
  induction 1 as [st | b key sc flips st' Hb Hlt _ IH | b key sc flips st' Hb Hle _ IH];
    intros Hb0 imp.
  - simpl. now rewrite orb_false_r.
  - replace (Z.to_nat (32 - b)) with (Datatypes.S (Z.to_nat (32 - (b + 1)))) by lia.
    cbn [for_loop fst snd]. rewrite try_bit_flip. cbn [cur curScore].
    apply Z.ltb_lt in Hlt. rewrite Hlt.
    pose proof (IH ltac:(lia) true) as IH'. cbn [fst snd] in IH'.
    rewrite IH'. cbn [adopted]. now rewrite orb_true_r.
  - replace (Z.to_nat (32 - b)) with (Datatypes.S (Z.to_nat (32 - (b + 1)))) by lia.
    cbn [for_loop fst snd]. rewrite try_bit_flip. cbn [cur curScore].
    apply Z.ltb_ge in Hle. rewrite Hle.
    apply (IH ltac:(lia) imp).
Qed.

(** The scan the loop computes can be derived by the rules. *)
Lemma loop_bit_scan fuel b c :
  Z.of_nat fuel = 32 - b -> 0 <= b ->
  exists flips,
    bit_scan block b (cur c, curScore c) flips
      (cur (for_loop fuel b (try_bit block) c),
       curScore (for_loop fuel b (try_bit block) c)) /\
    improved (for_loop fuel b (try_bit block) c) = improved c || adopted flips.
Proof.
  revert b c. induction fuel as [| fuel IH]; intros b c Hfuel Hb.
  - exists []. replace b with 32 by lia. simpl. split; [constructor | now rewrite orb_false_r].
  - cbn [for_loop]. rewrite try_bit_flip.
    destruct (Z.ltb_spec (curScore c) (score_list (flip_bit (cur c) b) block)) as [Hlt | Hge].
    + destruct (IH (b + 1)
                  {| cur := flip_bit (cur c) b;
                     curScore := score_list (flip_bit (cur c) b) block;
                     improved := true |} ltac:(lia) ltac:(lia)) as (flips & Hscan & Himp).
      exists (b :: flips). split.
      * apply scan_adopt; [lia | exact Hlt | exact Hscan].
      * rewrite Himp. simpl. now rewrite orb_true_r.
    + destruct (IH (b + 1) c ltac:(lia) ltac:(lia)) as (flips & Hscan & Himp).
      exists flips. split.
      * apply scan_keep; [lia | exact Hge | exact Hscan].
      * exact Himp.
Qed.

Lemma climb_pass_scan pass st flips st' :
  bit_scan block 0 st flips st' ->
  climb_pass block pass st = (st', negb (adopted flips)).
Proof.
  intros Hscan. unfold climb_pass.
  change (for_range 0 32 (try_bit block)) with (for_loop (Z.to_nat (32 - 0)) 0 (try_bit block)).
  rewrite (bit_scan_loop 0 st flips st' Hscan ltac:(lia) false).
  destruct st'. reflexivity.
Qed.

Lemma scan_climb_pass pass st :
  exists flips,
    bit_scan block 0 st flips (fst (climb_pass block pass st)) /\
    snd (climb_pass block pass st) = negb (adopted flips).
Proof.
  unfold climb_pass.
  change (for_range 0 32 (try_bit block)) with (for_loop 32 0 (try_bit block)).
  destruct (loop_bit_scan 32 0 {| cur := fst st; curScore := snd st; improved := false |}
              eq_refl ltac:(lia)) as (flips & Hscan & Himp).
  exists flips. cbn [fst snd cur curScore improved] in *. split.
  - destruct st. exact Hscan.
  - now rewrite Himp.
Qed.

Lemma climb_passes_loop n st out :
  climb_passes block n st out ->
  forall i, for_loop_break n i (climb_pass block) st = out.
Proof.
  induction 1 as [st | n st st' Hscan | n st flips st' out Hscan Hflips _ IH]; intros i.
  - reflexivity.
  - cbn [for_loop_break]. now rewrite (climb_pass_scan i st [] st' Hscan).
  - cbn [for_loop_break]. rewrite (climb_pass_scan i st flips st' Hscan).
    destruct flips as [| b flips]; [contradiction |]. apply IH.
Qed.

Lemma loop_climb_passes n i st :
  climb_passes block n st (for_loop_break n i (climb_pass block) st).
Proof.
  revert i st. induction n as [| n IH]; intros i st.
  - constructor.
  - cbn [for_loop_break].
    destruct (scan_climb_pass i st) as (flips & Hscan & Hbrk).
    destruct (climb_pass block i st) as [st' brk]. cbn [fst snd] in *. subst brk.
    destruct flips as [| b flips]; cbn [adopted negb].
    + now apply passes_converged.
    + apply (passes_continue block n st (b :: flips) st'); [exact Hscan | discriminate | apply IH].
Qed.

End Hillclimb.

(** [flip_bit key b] is [key] with the bit of position [b] flipped, and
    nothing else changed. *)
Lemma flip_bit_testbit key b n :
  0 <= b < 32 -> 0 <= n ->
  Z.testbit (flip_bit key b) n = xorb (Z.testbit key n) (n =? b).
Proof.
  intros Hb Hn. unfold flip_bit, u32.
  rewrite Z.shiftl_1_l, Z.mod_small.
  - rewrite Z.lxor_spec, Z.pow2_bits_eqb by lia. now rewrite Z.eqb_sym.
  - split; [apply Z.pow_nonneg; lia | apply Z.pow_lt_mono_r; lia].
Qed.

(** C6. A hillclimb from a starting key makes at most [hillIters] passes;
    a pass scans the bit positions 0..31 in order, takes at each the score
    of the current key (flips adopted earlier in the pass included) with
    that bit flipped, and adopts the flipped key exactly when its score is
    strictly greater than the current score; the passes stop after the
    first one that adopts no flip.  The outcomes so described are exactly
    the value the code returns, and the key tried at position [b] differs
    from the current key in the bit [b] alone. *)
Theorem hillclimb_meets_wording :
  forall (block : list Z) (cfg : SearchConfig) (start : Z) (out : Z * Z),
    (hillclimb_spec block (hillIters cfg) start out <-> hillclimb block cfg start = out) /\
    (forall key b n,
       0 <= b < 32 -> 0 <= n ->
       Z.testbit (flip_bit key b) n = xorb (Z.testbit key n) (n =? b)).
Proof.
  intros block cfg start out. split; [| apply flip_bit_testbit].
  unfold hillclimb_spec, hillclimb, for_range_break.
  rewrite Z.sub_0_r. split.
  - intros H. apply (climb_passes_loop block _ _ _ H).
  - intros <-. apply loop_climb_passes.
Qed.

(** C7. In a hillclimb the current score never decreases: no bit step
    lowers it, at the end of each pass it is at least what it was when the
    pass began, and the score the hillclimb returns is at least the score
    of the starting key. *)
Theorem hillclimb_never_decreases :
  forall (block : list Z) (cfg : SearchConfig) (start : Z),
    (forall b c, curScore c <= curScore (try_bit block b c)) /\
    (forall pass st, snd st <= snd (fst (climb_pass block pass st))) /\
    score_list start block <= snd (hillclimb block cfg start).
Proof.
  intros block cfg start. split; [| split].
  - apply try_bit_monotone.
  - apply climb_pass_monotone.
  - apply hillclimb_monotone.
Qed.

(** ** The restarts *)

Section Restarts.

Context {RS : RandomSource}.

Variable block : list Z.
Variable cfg : SearchConfig.

Lemma restart_keep_best r g res :
  restart block cfg r (g, res) =
  (snd (dist32 g), keep_best res (hillclimb block cfg (u32 (fst (dist32 g))))).
Proof.
  unfold restart, keep_best. destruct (dist32 g) as [drawn g']. cbn [fst snd].
  destruct (hillclimb block cfg (u32 drawn)) as [id sc]. cbn [fst snd].
  now destruct (sc >? bestScore res).
Qed.

(** The loop over the restarts folds [keep_best] over the outcomes of the
    hillclimbs. *)
Lemma restart_loop_outcomes n i g res :
  snd (for_loop n i (restart block cfg) (g, res)) =
  fold_left keep_best (restart_outcomes block cfg n g) res.
Proof.
  revert i g res. induction n as [| n IH]; intros i g res; [reflexivity |].
  cbn [for_loop restart_outcomes]. rewrite restart_keep_best, IH.
  now destruct (dist32 g).
Qed.

Lemma searchBestListID_outcomes rngSeed :
  searchBestListID block cfg rngSeed =
  fold_left keep_best
    (restart_outcomes block cfg (Z.to_nat (restarts cfg)) (rng_init rngSeed))
    default_result.
Proof.
  unfold searchBestListID, for_range. rewrite Z.sub_0_r. apply restart_loop_outcomes.
Qed.

Lemma restart_outcomes_length n g : length (restart_outcomes block cfg n g) = n.
Proof.
  revert g. induction n as [| n IH]; intros g; simpl; [reflexivity |].
  destruct (dist32 g). simpl. now rewrite IH.
Qed.

Lemma restart_outcomes_consistent n g :
  Forall (fun out => snd out = score_list (fst out) block) (restart_outcomes block cfg n g).
Proof.
  revert g. induction n as [| n IH]; intros g; simpl; [constructor |].
  destruct (dist32 g) as [drawn g']. constructor; [apply hillclimb_consistent | apply IH].
Qed.

Lemma restart_outcomes_nonneg n g :
  int_sized block ->
  Forall (fun out => 0 <= snd out) (restart_outcomes block cfg n g).
Proof.
  intros Hn. revert g. induction n as [| n IH]; intros g; simpl; [constructor |].
  destruct (dist32 g) as [drawn g']. constructor; [| apply IH].
  pose proof (hillclimb_monotone block cfg (u32 drawn)).
  pose proof (score_list_nonneg (u32 drawn) block Hn). lia.
Qed.

(** The machine computes what the loop computes. *)
Lemma search_run_loop n m :
  n = Z.to_nat (restarts cfg - m_r m) ->
  search_run block cfg m (snd (for_loop n (m_r m) (restart block cfg) (m_rng m, m_res m))).
Proof.
  revert m. induction n as [| n IH]; intros m Hn.
  - simpl. apply run_return. lia.
  - cbn [for_loop]. rewrite restart_keep_best.
    destruct (dist32 (m_rng m)) as [drawn g'] eqn:Ed. cbn [fst snd].
    destruct (hillclimb block cfg (u32 drawn)) as [id sc] eqn:Eh.
    eapply run_step.
    + apply (step_restart block cfg m drawn g' id sc); [lia | exact Ed | exact Eh].
    + unfold keep_best. cbn [fst snd].
      match goal with
      | |- search_run _ _ ?m' _ => apply (IH m')
      end.
      cbn [m_r]. lia.
Qed.

Lemma search_step_deterministic m m1 m2 :
  search_step block cfg m m1 -> search_step block cfg m m2 -> m1 = m2.
Proof.
  intros H1 H2. destruct H1 as [m d1 g1 id1 sc1 _ Ed1 Eh1].
  inversion H2 as [m' d2 g2 id2 sc2 _ Ed2 Eh2]; subst.
  rewrite Ed1 in Ed2. injection Ed2 as <- <-.
  rewrite Eh1 in Eh2. injection Eh2 as <- <-. reflexivity.
Qed.

Lemma search_run_deterministic m out1 out2 :
  search_run block cfg m out1 -> search_run block cfg m out2 -> out1 = out2.
Proof.
  intros H1. revert out2.
  induction H1 as [m Hend | m m' out1 Hstep _ IH]; intros out2 H2.
  - destruct H2 as [m _ | m m2 out2 Hstep2 _]; [reflexivity |].
    destruct Hstep2. lia.
  - destruct H2 as [m Hend | m m2 out2 Hstep2 H2].
    + destruct Hstep. lia.
    + apply IH. now rewrite (search_step_deterministic m m' m2 Hstep Hstep2).
Qed.

End Restarts.

(** The first of the best: folding [keep_best] over a list of outcomes
    either leaves [res], when no outcome beats it, or ends on the earliest
    outcome of maximal score. *)
Lemma keep_best_first outs :
  forall res,
    (fold_left keep_best outs res = res /\
     Forall (fun o => snd o <= bestScore res) outs) \/
    (exists pre id sc post,
       outs = pre ++ (id, sc) :: post /\
       fold_left keep_best outs res = {| bestID := id; bestScore := sc |} /\
       bestScore res < sc /\
       Forall (fun o => snd o < sc) pre /\
       Forall (fun o => snd o <= sc) post).
Proof.
  induction outs as [| [id0 sc0] outs IH]; intros res.
  - left. split; [reflexivity | constructor].
  - cbn [fold_left]. unfold keep_best at 2 4. cbn [fst snd].
    destruct (Z.gtb_spec sc0 (bestScore res)) as [Hgt | Hle].
    + right. destruct (IH {| bestID := id0; bestScore := sc0 |})
        as [[E Hall] | (pre & id & sc & post & -> & E & Hlt & Hpre & Hpost)].
      * exists [], id0, sc0, outs. cbn [bestScore] in Hall.
        repeat split; [exact E | lia | constructor | exact Hall].
      * exists ((id0, sc0) :: pre), id, sc, post. cbn [bestScore] in Hlt.
        repeat split; [exact E | lia | | exact Hpost].
        constructor; [exact Hlt | exact Hpre].
    + destruct (IH res) as [[E Hall] | (pre & id & sc & post & -> & E & Hlt & Hpre & Hpost)].
      * left. split; [exact E |]. constructor; [exact Hle | exact Hall].
      * right. exists ((id0, sc0) :: pre), id, sc, post.
        repeat split; [exact E | exact Hlt | | exact Hpost].
        constructor; [cbn [snd]; lia | exact Hpre].
Qed.

(** With at least one restart on a block of [int] size, the result is the
    earliest outcome of maximal score. *)
Lemma search_first_of_best {RS : RandomSource} block cfg rngSeed :
  1 <= restarts cfg ->
  int_sized block ->
  exists pre id sc post,
    restart_outcomes block cfg (Z.to_nat (restarts cfg)) (rng_init rngSeed) =
      pre ++ (id, sc) :: post /\
    searchBestListID block cfg rngSeed = {| bestID := id; bestScore := sc |} /\
    Forall (fun o => snd o < sc) pre /\
    Forall (fun o => snd o <= sc) post.
Proof.
  intros Hr Hn. rewrite searchBestListID_outcomes.
  pose proof (restart_outcomes_nonneg block cfg (Z.to_nat (restarts cfg))
                (rng_init rngSeed) Hn) as Hpos.
  pose proof (restart_outcomes_length block cfg (Z.to_nat (restarts cfg))
                (rng_init rngSeed)) as Hlen.
  destruct (keep_best_first
              (restart_outcomes block cfg (Z.to_nat (restarts cfg)) (rng_init rngSeed))
              default_result)
    as [[_ Hall] | (pre & id & sc & post & E & Eres & _ & Hpre & Hpost)].
  - destruct (restart_outcomes block cfg (Z.to_nat (restarts cfg)) (rng_init rngSeed))
      as [| o outs]; [simpl in Hlen; lia |].
    inversion Hall; subst. inversion Hpos; subst. cbn [default_result bestScore] in *. lia.
  - exists pre, id, sc, post. now rewrite <- E.
Qed.

(** C4, as the code has it.  With [restarts <= 0] the search makes no
    restart and returns the default-initialised result, key 0 with score
    -1; no error is signalled. *)
Theorem searchBestListID_no_restart :
  forall (RS : RandomSource) (block : list Z) (cfg : SearchConfig) (rngSeed : Z),
    restarts cfg <= 0 ->
    searchBestListID block cfg rngSeed = {| bestID := 0; bestScore := -1 |}.
Proof.
  intros RS block cfg rngSeed H. unfold searchBestListID.
  rewrite for_range_none by exact H. reflexivity.
Qed.

(** C5. The search is deterministic: a run of [searchBestListID] on a
    block, a configuration and a seed returns, and any two runs on the
    same three return the same key and the same score. *)
Theorem searchBestListID_deterministic :
  forall (RS : RandomSource) (block : list Z) (cfg : SearchConfig) (rngSeed : Z),
    search_returns block cfg rngSeed (searchBestListID block cfg rngSeed) /\
    (forall out1 out2,
       search_returns block cfg rngSeed out1 ->
       search_returns block cfg rngSeed out2 ->
       bestID out1 = bestID out2 /\ bestScore out1 = bestScore out2).
Proof.
  intros RS block cfg rngSeed. split.
  - unfold search_returns, searchBestListID, for_range.
    apply (search_run_loop block cfg _
             {| m_r := 0; m_rng := rng_init rngSeed; m_res := default_result |}).
    reflexivity.
  - intros out1 out2 H1 H2.
    now rewrite (search_run_deterministic block cfg _ out1 out2 H1 H2).
Qed.



(** ** The theorems at concrete inputs *)

Lemma sample_block_int_sized : int_sized sample_block.
Proof. unfold int_sized, INT_MAX, sample_block. simpl. lia. Qed.

Lemma score_list_max_witness :
  int_sized sample_block /\
  score_list 0 sample_block =
    Z.max (count_members 0 sample_block)
          (Z.of_nat (length sample_block) - count_members 0 sample_block).
Proof.
  split; [exact sample_block_int_sized |].
  exact (proj1 (score_list_max 0 sample_block sample_block_int_sized)).
Defined.

(** C4, as the claim has it, fails: with [restarts = 0] the search returns
    the default key 0 with the default score -1, and nothing else happens. *)
Lemma searchBestListID_restarts_zero :
  restarts no_restart_config <= 0 /\
  searchBestListID sample_block no_restart_config default_seed =
    {| bestID := 0; bestScore := -1 |}.
Proof. split; [simpl; lia | vm_compute; reflexivity]. Qed.

Lemma searchBestListID_no_restart_witness :
  restarts no_restart_config <= 0 /\
  searchBestListID sample_block no_restart_config 1 = {| bestID := 0; bestScore := -1 |}.
Proof.
  split; [simpl; lia |].
  apply (searchBestListID_no_restart mt19937_64 sample_block no_restart_config 1).
  simpl. lia.
Defined.



(** ** Further properties of the permutation and of the scorer *)

(** X1. The permutation and the rounds undone in reverse order are inverse
    to each other on the 16-bit values, for every key. *)
Theorem prp16_round_trip :
  forall key x : Z,
    is_u16 x ->
    prp16_inv (prp16 x key) key = x /\ prp16 (prp16_inv x key) key = x.
Proof.
  intros key x Hx. split; [now apply prp16_inv_prp16 | now apply prp16_prp16_inv].
Qed.

Lemma is_u16_0x1234 : is_u16 0x1234.
Proof. unfold is_u16. simpl. lia. Qed.

Lemma prp16_round_trip_witness :
  is_u16 0x1234 /\
  prp16_inv (prp16 0x1234 0xDEADBEEF) 0xDEADBEEF = 0x1234 /\
  prp16 (prp16_inv 0x1234 0xDEADBEEF) 0xDEADBEEF = 0x1234.
Proof.
  split; [exact is_u16_0x1234 |].
  exact (prp16_round_trip 0xDEADBEEF 0x1234 is_u16_0x1234).
Defined.

Lemma msb_clear_lt y : is_u16 y -> msb_clear y = true <-> y < 2 ^ 15.
Proof.
  unfold is_u16, msb_clear. intros Hy. rewrite Z.eqb_eq.
  change 0x8000 with (2 ^ 15).
  assert (Hbit : Z.land y (2 ^ 15) = 0 <-> Z.testbit y 15 = false).
  { split.
    - intros E. pose proof (Z.land_spec y (2 ^ 15) 15) as H.
      rewrite E, Z.bits_0, Z.pow2_bits_true in H by lia.
      now rewrite andb_true_r in H.
    - intros E. apply Z.bits_inj'. intros n Hn.
      rewrite Z.land_spec, Z.bits_0, Z.pow2_bits_eqb by lia.
      destruct (Z.eqb_spec 15 n) as [<- | _]; [now rewrite E | apply andb_false_r]. }
  rewrite Hbit, Z.testbit_odd, Z.shiftr_div_pow2 by lia.
  change (2 ^ 15) with 32768. change (2 ^ 16) with 65536 in Hy.
  assert (Hq : 0 <= y / 32768 < 2).
  { split; [apply Z.div_pos; lia | apply Z.div_lt_upper_bound; lia]. }
  split.
  - intros Hodd. destruct (Z.eq_dec (y / 32768) 0) as [E | E].
    + apply Z.div_small_iff in E; lia.
    + replace (y / 32768) with 1 in Hodd by lia. discriminate.
  - intros Hlt. now rewrite Z.div_small by lia.
Qed.

Lemma hasValue_lt key x : hasValue key x = true <-> prp16 x key < 32768.
Proof.
  rewrite hasValue_msb_clear.
  apply (msb_clear_lt (prp16 x key)), prp16_is_u16.
Qed.

(** X2. A value is a member of the list of a key exactly when the
    permutation sends it into the lower half of the 16-bit range. *)
Theorem hasValue_lower_half :
  forall key x : Z, hasValue key x = true <-> prp16 x key < 32768.
Proof. exact hasValue_lt. Qed.

(** X3. The members of the list of a key among the 16-bit values are the
    images of the lower half of the range under the inverse permutation. *)
Theorem hasValue_inverse_image :
  forall key x : Z,
    is_u16 x ->
    hasValue key x = true <-> exists y, 0 <= y < 32768 /\ x = prp16_inv y key.
Proof.
  intros key x Hx. rewrite hasValue_lt. split.
  - intros Hlt. exists (prp16 x key). split.
    + pose proof (prp16_is_u16 key x) as H. unfold is_u16 in H. lia.
    + symmetry. now apply prp16_inv_prp16.
  - intros (y & Hy & ->). rewrite prp16_prp16_inv; [lia |].
    unfold is_u16. change (2 ^ 16) with 65536. lia.
Qed.

Lemma hasValue_inverse_image_witness :
  is_u16 0x1234 /\
  (hasValue 0xDEADBEEF 0x1234 = true <->
   exists y, 0 <= y < 32768 /\ 0x1234 = prp16_inv y 0xDEADBEEF).
Proof.
  split; [exact is_u16_0x1234 |].
  exact (hasValue_inverse_image 0xDEADBEEF 0x1234 is_u16_0x1234).
Defined.

Lemma count_members_Permutation key b b' :
  Permutation b b' -> count_members key b = count_members key b'.
Proof.
  intros H. unfold count_members.
  now rewrite (filter_length_Permutation Z (hasValue key) b b' H).
Qed.

Lemma count_others_Permutation key b b' :
  Permutation b b' -> count_others key b = count_others key b'.
Proof.
  intros H. unfold count_others.
  now rewrite (filter_length_Permutation Z (fun x => negb (hasValue key x)) b b' H).
Qed.

(** X4. The score does not depend on the order of the values of the
    block. *)
Theorem score_list_order :
  forall (key : Z) (block block' : list Z),
    Permutation block block' -> score_list key block = score_list key block'.
Proof.
  intros key block block' H. rewrite !score_list_counts.
  now rewrite (count_members_Permutation key _ _ H), (count_others_Permutation key _ _ H).
Qed.

Lemma score_list_order_witness :
  Permutation [3; 1; 2] [1; 2; 3] /\ score_list 7 [3; 1; 2] = score_list 7 [1; 2; 3].
Proof.
  assert (H : Permutation [3; 1; 2] [1; 2; 3]).
  { apply (Permutation_cons_app [1; 2] [] 3). apply Permutation_refl. }
  split; [exact H | exact (score_list_order 7 [3; 1; 2] [1; 2; 3] H)].
Defined.

Lemma count_members_repeat key v n :
  count_members key (repeat v n) = if hasValue key v then Z.of_nat n else 0.
Proof.
  unfold count_members. induction n as [| n IH]; [now destruct (hasValue key v) |].
  cbn [repeat filter]. destruct (hasValue key v) eqn:E; cbn [length]; lia.
Qed.

Lemma score_list_repeat key v n :
  Z.of_nat n <= INT_MAX -> score_list key (repeat v n) = Z.of_nat n.
Proof.
  intros Hn. rewrite score_list_int_sized by (unfold int_sized; now rewrite repeat_length).
  rewrite count_members_repeat, repeat_length. destruct (hasValue key v); lia.
Qed.

(** X5. On a block of [n] copies of one value the score is [n], whatever
    the key. *)
Theorem score_list_constant_block :
  forall (key v : Z) (n : nat),
    Z.of_nat n <= INT_MAX -> score_list key (repeat v n) = Z.of_nat n.
Proof. exact score_list_repeat. Qed.

Lemma score_list_constant_block_witness :
  Z.of_nat 64 <= INT_MAX /\ score_list 0xDEADBEEF (repeat 0x1234 64) = Z.of_nat 64.
Proof.
  assert (H : Z.of_nat 64 <= INT_MAX) by (unfold INT_MAX; simpl; lia).
  split; [exact H | exact (score_list_constant_block 0xDEADBEEF 0x1234 64 H)].
Defined.

Lemma count_members_app key b1 b2 :
  count_members key (b1 ++ b2) = count_members key b1 + count_members key b2.
Proof. unfold count_members. rewrite filter_app, length_app. lia. Qed.

(** X6. Appending values to a block never lowers the score and raises it
    by at most the number of values appended; the score of the whole is at
    most the sum of the scores of the two parts. *)
Theorem score_list_append :
  forall (key : Z) (b1 b2 : list Z),
    int_sized (b1 ++ b2) ->
    score_list key b1 <= score_list key (b1 ++ b2) /\
    score_list key (b1 ++ b2) <= score_list key b1 + Z.of_nat (length b2) /\
    score_list key (b1 ++ b2) <= score_list key b1 + score_list key b2.
Proof.
  intros key b1 b2 H.
  assert (H1 : int_sized b1) by (unfold int_sized in *; rewrite length_app in H; lia).
  assert (H2 : int_sized b2) by (unfold int_sized in *; rewrite length_app in H; lia).
  rewrite (score_list_int_sized key _ H), (score_list_int_sized key _ H1),
    (score_list_int_sized key _ H2).
  rewrite count_members_app, length_app.
  pose proof (count_members_range key b1). pose proof (count_members_range key b2).
  lia.
Qed.

Lemma score_list_append_witness :
  int_sized ([1; 2; 3] ++ [4; 5]) /\
  score_list 7 [1; 2; 3] <= score_list 7 ([1; 2; 3] ++ [4; 5]).
Proof.
  assert (H : int_sized ([1; 2; 3] ++ [4; 5])) by (unfold int_sized, INT_MAX; simpl; lia).
  split; [exact H | exact (proj1 (score_list_append 7 [1; 2; 3] [4; 5] H))].
Defined.

(** ** Further properties of the hillclimb *)

Section Bits32.

Lemma high_bits_lt_pow2 z n :
  0 <= n -> 0 <= z -> (forall m, n <= m -> Z.testbit z m = false) -> z < 2 ^ n.
Proof.
  intros Hn Hz Hbits.
  assert (E : z mod 2 ^ n = z).
  { apply Z.bits_inj'. intros m Hm.
    destruct (Z_lt_ge_dec m n) as [Hlt | Hge].
    - now apply Z.mod_pow2_bits_low.
    - rewrite Z.mod_pow2_bits_high by lia. symmetry. apply Hbits. lia. }
  rewrite <- E. apply Z.mod_pos_bound, Z.pow_pos_nonneg; lia.
Qed.

Lemma lt_pow2_high_bits z n m :
  0 <= z < 2 ^ n -> n <= m -> Z.testbit z m = false.
Proof.
  intros Hz Hm. destruct (Z_lt_ge_dec n 0) as [Hneg | Hn].
  - rewrite Z.pow_neg_r in Hz by lia. lia.
  - rewrite <- (Z.mod_small z (2 ^ n)) by exact Hz.
    apply Z.mod_pow2_bits_high. lia.
Qed.

Lemma lxor_is_u32 a b : is_u32 a -> is_u32 b -> is_u32 (Z.lxor a b).
Proof.
  unfold is_u32. intros Ha Hb. split.
  - apply Z.lxor_nonneg. lia.
  - apply high_bits_lt_pow2; [lia | apply Z.lxor_nonneg; lia |].
    intros m Hm. rewrite Z.lxor_spec.
    now rewrite (lt_pow2_high_bits a 32 m Ha Hm), (lt_pow2_high_bits b 32 m Hb Hm).
Qed.

Lemma u32_is_u32 z : is_u32 (u32 z).
Proof. unfold is_u32, u32. apply Z.mod_pos_bound. reflexivity. Qed.

Lemma flip_bit_is_u32 key b : is_u32 key -> is_u32 (flip_bit key b).
Proof. intros H. unfold flip_bit. apply lxor_is_u32; [exact H | apply u32_is_u32]. Qed.

End Bits32.

Section HillclimbMore.

Variable block : list Z.

Lemma try_bit_is_u32 b c : is_u32 (cur c) -> is_u32 (cur (try_bit block b c)).
Proof.
  intros H. rewrite try_bit_flip. destruct (curScore c <? _); [| exact H].
  apply flip_bit_is_u32, H.
Qed.

Lemma hillclimb_is_u32 cfg start :
  is_u32 start -> is_u32 (fst (hillclimb block cfg start)).
Proof.
  intros H. unfold hillclimb, for_range_break.
  apply (for_loop_break_invariant (fun st => is_u32 (fst st))); [| exact H].
  intros i s Hs. unfold climb_pass. cbn [fst].
  apply (for_loop_invariant (fun c => is_u32 (cur c))); [| exact Hs].
  intros j c. apply try_bit_is_u32.
Qed.

(** A scan leaves a state alone when none of the flips it tries has a
    greater score. *)
Lemma bit_loop_fixed fuel b c :
  (forall b', b <= b' < b + Z.of_nat fuel ->
     score_list (flip_bit (cur c) b') block <= curScore c) ->
  for_loop fuel b (try_bit block) c = c.
Proof.
  revert b. induction fuel as [| fuel IH]; intros b H; [reflexivity |].
  cbn [for_loop]. rewrite try_bit_flip.
  assert (Hb : score_list (flip_bit (cur c) b) block <= curScore c) by (apply H; lia).
  apply Z.ltb_ge in Hb. rewrite Hb. apply IH. intros b' Hb'. apply H. lia.
Qed.

Lemma hillclimb_fixed cfg key :
  local_optimum block key -> hillclimb block cfg key = (key, score_list key block).
Proof.
  intros Hopt. unfold hillclimb, for_range_break.
  destruct (Z.to_nat (hillIters cfg - 0)) as [| n]; [reflexivity |].
  cbn [for_loop_break]. unfold climb_pass.
  change (for_range 0 32 (try_bit block)) with (for_loop 32 0 (try_bit block)).
  rewrite bit_loop_fixed; [reflexivity |].
  intros b' Hb'. cbn [cur curScore fst snd]. apply Hopt. lia.
Qed.

(** What a scan that adopts no flip tells, and what one that adopts a flip
    gains. *)
Lemma bit_scan_none b st st' :
  bit_scan block b st [] st' ->
  st' = st /\
  forall b', b <= b' < 32 -> score_list (flip_bit (fst st) b') block <= snd st.
Proof.
  intros H. remember [] as flips eqn:E. revert E.
  induction H as [st | b key sc flips st' Hb Hlt _ _ | b key sc flips st' Hb Hle _ IH];
    intros E.
  - split; [reflexivity | intros b' Hb'; lia].
  - discriminate.
  - destruct (IH E) as [-> Hall]. split; [reflexivity |].
    intros b' Hb'. cbn [fst snd] in *.
    destruct (Z.eq_dec b' b) as [-> | Hne]; [exact Hle | apply Hall; lia].
Qed.

Lemma bit_scan_gain b st flips st' :
  bit_scan block b st flips st' ->
  snd st <= snd st' /\ (flips <> [] -> snd st < snd st').
Proof.
  induction 1 as [st | b key sc flips st' Hb Hlt _ IH | b key sc flips st' Hb Hle _ IH];
    cbn [fst snd] in *.
  - split; [lia | congruence].
  - split; [lia | intros _; lia].
  - exact IH.
Qed.

Lemma climb_passes_end n st out :
  climb_passes block n st out ->
  (forall b, 0 <= b < 32 -> score_list (flip_bit (fst out) b) block <= snd out) \/
  snd st + Z.of_nat n <= snd out.
Proof.
  induction 1 as [st | n st st' Hscan | n st flips st' out Hscan Hflips _ IH].
  - right. simpl. lia.
  - left. destruct (bit_scan_none 0 st st' Hscan) as [-> Hall]. exact Hall.
  - destruct IH as [IH | IH]; [now left | right].
    pose proof (proj2 (bit_scan_gain 0 st flips st' Hscan) Hflips). lia.
Qed.

Lemma hillclimb_end cfg start :
  local_optimum block (fst (hillclimb block cfg start)) \/
  score_list start block + Z.max 0 (hillIters cfg) <= snd (hillclimb block cfg start).
Proof.
  pose proof (loop_climb_passes block (Z.to_nat (hillIters cfg - 0)) 0
                (start, score_list start block)) as H.
  apply climb_passes_end in H. fold (for_range_break 0 (hillIters cfg) (climb_pass block)
                                       (start, score_list start block)) in H.
  change (for_range_break 0 (hillIters cfg) (climb_pass block)
            (start, score_list start block)) with (hillclimb block cfg start) in H.
  destruct H as [H | H].
  - left. intros b Hb. rewrite <- hillclimb_consistent. now apply H.
  - right. cbn [snd] in H. lia.
Qed.

(** The loop over the passes ends on a state that no flip improves, or
    every one of its passes raised the score. *)
Lemma climb_loop_end n :
  forall i st,
    (forall b, 0 <= b < 32 ->
       score_list (flip_bit (fst (for_loop_break n i (climb_pass block) st)) b) block
         <= snd (for_loop_break n i (climb_pass block) st)) \/
    ((forall j, (j < n)%nat ->
        snd (after_passes block j st) < snd (after_passes block (Datatypes.S j) st)) /\
     for_loop_break n i (climb_pass block) st = after_passes block n st /\
     snd st + Z.of_nat n <= snd (for_loop_break n i (climb_pass block) st)).
Proof.
  induction n as [| n IH]; intros i st.
  - right. split; [intros j Hj; lia |]. split; [reflexivity | simpl; lia].
  - cbn [for_loop_break].
    destruct (scan_climb_pass block i st) as (flips & Hscan & Hbrk).
    change (climb_pass block i st) with (climb_pass block 0 st) in *.
    destruct (climb_pass block 0 st) as [st' brk] eqn:Epass. cbn [fst snd] in *. subst brk.
    destruct flips as [| b flips]; cbn [adopted negb].
    + left. destruct (bit_scan_none 0 st st' Hscan) as [-> Hall].
      intros b Hb. apply Hall. lia.
    + pose proof (proj2 (bit_scan_gain 0 st (b :: flips) st' Hscan)
                    ltac:(discriminate)) as Hgain.
      destruct (IH (i + 1) st') as [Hopt | (Hraise & Eout & Hsum)]; [now left | right].
      split; [| split].
      * intros j Hj. destruct j as [| j]; cbn [after_passes]; rewrite Epass; cbn [fst].
        -- exact Hgain.
        -- apply (Hraise j). lia.
      * cbn [after_passes]. rewrite Epass. exact Eout.
      * lia.
Qed.

End HillclimbMore.

(** X7. The pair a hillclimb returns is a key with its own score on the
    block, for every block, configuration and starting key. *)
Theorem hillclimb_returns_own_score :
  forall (block : list Z) (cfg : SearchConfig) (start : Z),
    snd (hillclimb block cfg start) = score_list (fst (hillclimb block cfg start)) block.
Proof. exact hillclimb_consistent. Qed.

(** X8. A hillclimb that starts from a 32-bit key returns a 32-bit key:
    the flips stay inside the 32 bits. *)
Theorem hillclimb_key_32bit :
  forall (block : list Z) (cfg : SearchConfig) (start : Z),
    is_u32 start -> is_u32 (fst (hillclimb block cfg start)).
Proof. exact hillclimb_is_u32. Qed.

Lemma is_u32_sample : is_u32 779670154.
Proof. unfold is_u32. simpl. lia. Qed.

Lemma hillclimb_key_32bit_witness :
  is_u32 779670154 /\ is_u32 (fst (hillclimb sample_block sample_config 779670154)).
Proof.
  split; [exact is_u32_sample |].
  exact (hillclimb_key_32bit sample_block sample_config 779670154 is_u32_sample).
Defined.

(** X9. A key that no single-bit flip improves is returned unchanged, with
    its score, whatever the number of passes. *)
Theorem hillclimb_local_optimum_fixed :
  forall (block : list Z) (cfg : SearchConfig) (key : Z),
    local_optimum block key ->
    hillclimb block cfg key = (key, score_list key block).
Proof. exact hillclimb_fixed. Qed.

(** X10. A hillclimb ends on a key that no single-bit flip improves,
    unless every one of its [hillIters] passes strictly raised the score;
    in that case it returns the state after the last pass, and the score
    returned exceeds that of the starting key by [hillIters] at least. *)
Theorem hillclimb_ends_at_local_optimum :
  forall (block : list Z) (cfg : SearchConfig) (start : Z),
    local_optimum block (fst (hillclimb block cfg start)) \/
    ((forall j, (j < Z.to_nat (hillIters cfg))%nat ->
        snd (after_passes block j (start, score_list start block)) <
        snd (after_passes block (Datatypes.S j) (start, score_list start block))) /\
     hillclimb block cfg start =
       after_passes block (Z.to_nat (hillIters cfg)) (start, score_list start block) /\
     score_list start block + Z.max 0 (hillIters cfg) <= snd (hillclimb block cfg start)).
Proof.
  intros block cfg start.
  pose proof (climb_loop_end block (Z.to_nat (hillIters cfg - 0)) 0
                (start, score_list start block)) as H.
  fold (for_range_break 0 (hillIters cfg) (climb_pass block)
          (start, score_list start block)) in H.
  change (for_range_break 0 (hillIters cfg) (climb_pass block)
            (start, score_list start block)) with (hillclimb block cfg start) in H.
  rewrite Z.sub_0_r in H. destruct H as [H | (Hraise & Eout & Hgain)].
  - left. intros b Hb. rewrite <- hillclimb_consistent. now apply H.
  - right. split; [exact Hraise |]. split; [exact Eout |]. cbn [snd] in Hgain. lia.
Qed.

(** X11. On a block of [n] values ([n] an [int]) more than [n / 2] passes
    always suffice: the hillclimb then ends on a key that no single-bit
    flip improves. *)
Theorem hillclimb_enough_passes :
  forall (block : list Z) (cfg : SearchConfig) (start : Z),
    int_sized block ->
    Z.of_nat (length block) / 2 < hillIters cfg ->
    local_optimum block (fst (hillclimb block cfg start)).
Proof.
  intros block cfg start Hn Hit.
  destruct (hillclimb_end block cfg start) as [H | H]; [exact H | exfalso].
  rewrite hillclimb_consistent in H.
  rewrite (score_list_int_sized start block Hn) in H.
  rewrite (score_list_int_sized (fst (hillclimb block cfg start)) block Hn) in H.
  pose proof (count_members_range start block).
  pose proof (count_members_range (fst (hillclimb block cfg start)) block).
  pose proof (Z.div_mod (Z.of_nat (length block)) 2 ltac:(lia)).
  pose proof (Z.mod_pos_bound (Z.of_nat (length block)) 2 ltac:(lia)).
  lia.
Qed.

Lemma local_optimum_constant_block key v n :
  Z.of_nat n <= INT_MAX -> local_optimum (repeat v n) key.
Proof. intros Hn b _. rewrite !score_list_repeat by exact Hn. lia. Qed.

Lemma hillclimb_local_optimum_fixed_witness :
  local_optimum (repeat 0x1234 64) 0xDEADBEEF /\
  hillclimb (repeat 0x1234 64) sample_config 0xDEADBEEF =
    (0xDEADBEEF, score_list 0xDEADBEEF (repeat 0x1234 64)).
Proof.
  assert (H : local_optimum (repeat 0x1234 64) 0xDEADBEEF).
  { apply local_optimum_constant_block. unfold INT_MAX. simpl. lia. }
  split; [exact H |].
  exact (hillclimb_local_optimum_fixed (repeat 0x1234 64) sample_config 0xDEADBEEF H).
Defined.

Lemma hillclimb_enough_passes_witness :
  int_sized sample_block /\
  Z.of_nat (length sample_block) / 2 < hillIters thorough_config /\
  local_optimum sample_block (fst (hillclimb sample_block thorough_config 779670154)).
Proof.
  assert (H : Z.of_nat (length sample_block) / 2 < hillIters thorough_config)
    by (vm_compute; reflexivity).
  split; [exact sample_block_int_sized |]. split; [exact H |].
  exact (hillclimb_enough_passes sample_block thorough_config 779670154
           sample_block_int_sized H).
Defined.

(** ** Further properties of the search *)

Section SearchMore.

Context {RS : RandomSource}.

Variable block : list Z.

Lemma restart_outcomes_starts cfg n g :
  restart_outcomes block cfg n g = map (hillclimb block cfg) (restart_starts n g).
Proof.
  revert g. induction n as [| n IH]; intros g; [reflexivity |].
  cbn [restart_outcomes restart_starts]. destruct (dist32 g) as [drawn g'].
  cbn [map]. now rewrite IH.
Qed.

Lemma restart_starts_length n g : length (restart_starts n g) = n.
Proof.
  revert g. induction n as [| n IH]; intros g; [reflexivity |].
  cbn [restart_starts]. destruct (dist32 g). cbn [length]. now rewrite IH.
Qed.

Lemma restart_starts_is_u32 n g : Forall is_u32 (restart_starts n g).
Proof.
  revert g. induction n as [| n IH]; intros g; [constructor |].
  cbn [restart_starts]. destruct (dist32 g). constructor; [apply u32_is_u32 | apply IH].
Qed.

(** More restarts draw the same keys first. *)
Lemma restart_starts_prefix n m g :
  (n <= m)%nat -> exists more, restart_starts m g = restart_starts n g ++ more.
Proof.
  revert m g. induction n as [| n IH]; intros m g Hnm.
  - now exists (restart_starts m g).
  - destruct m as [| m]; [lia |]. cbn [restart_starts].
    destruct (dist32 g) as [drawn g'].
    destruct (IH m g' ltac:(lia)) as [more ->]. now exists more.
Qed.

(** The hillclimb reads [hillIters] only. *)
Lemma hillclimb_config cfg cfg' start :
  hillIters cfg = hillIters cfg' -> hillclimb block cfg start = hillclimb block cfg' start.
Proof. intros H. unfold hillclimb. now rewrite H. Qed.

Lemma restart_outcomes_config cfg cfg' n g :
  hillIters cfg = hillIters cfg' ->
  restart_outcomes block cfg n g = restart_outcomes block cfg' n g.
Proof.
  intros H. rewrite !restart_outcomes_starts. apply map_ext.
  intros s. now apply hillclimb_config.
Qed.

Lemma search_config cfg cfg' rngSeed :
  restarts cfg = restarts cfg' -> hillIters cfg = hillIters cfg' ->
  searchBestListID block cfg rngSeed = searchBestListID block cfg' rngSeed.
Proof.
  intros Hr Hh. rewrite !searchBestListID_outcomes, Hr.
  now rewrite (restart_outcomes_config cfg cfg' _ _ Hh).
Qed.

Lemma search_bounds cfg rngSeed :
  1 <= restarts cfg -> int_sized block ->
  (Z.of_nat (length block) + 1) / 2 <= bestScore (searchBestListID block cfg rngSeed)
    <= Z.of_nat (length block).
Proof.
  intros Hr Hn.
  destruct (search_first_of_best block cfg rngSeed Hr Hn)
    as (pre & id & sc & post & E & Eres & _ & _).
  pose proof (restart_outcomes_consistent block cfg (Z.to_nat (restarts cfg))
                (rng_init rngSeed)) as Hc.
  rewrite E in Hc. apply Forall_app in Hc. destruct Hc as [_ Hc].
  inversion Hc as [| o l Ho _]; subst. cbn [fst snd] in Ho.
  rewrite Eres. cbn [bestScore]. rewrite Ho, (score_list_int_sized id block Hn).
  pose proof (count_members_range id block). split; [| lia].
  apply Z.lt_succ_r, Z.div_lt_upper_bound; lia.
Qed.

Lemma search_is_u32 cfg rngSeed : is_u32 (bestID (searchBestListID block cfg rngSeed)).
Proof.
  rewrite searchBestListID_outcomes, restart_outcomes_starts.
  pose proof (restart_starts_is_u32 (Z.to_nat (restarts cfg)) (rng_init rngSeed)) as Hs.
  assert (H0 : is_u32 (bestID default_result)) by (unfold is_u32; simpl; lia).
  revert Hs H0. generalize default_result.
  induction (restart_starts (Z.to_nat (restarts cfg)) (rng_init rngSeed)) as [| s l IH];
    intros res Hs Hres; [exact Hres |].
  inversion Hs as [| ? ? Hs0 Hl]; subst. cbn [map fold_left]. apply IH; [exact Hl |].
  unfold keep_best. destruct (_ >? _); [| exact Hres].
  cbn [bestID]. now apply hillclimb_is_u32.
Qed.

End SearchMore.

(** Folding [keep_best] never lowers the tracked score. *)
Lemma keep_best_fold_monotone outs res :
  bestScore res <= bestScore (fold_left keep_best outs res).
Proof.
  revert res. induction outs as [| o outs IH]; intros res; [simpl; lia |].
  cbn [fold_left]. specialize (IH (keep_best res o)).
  unfold keep_best in *. destruct (Z.gtb_spec (snd o) (bestScore res)); cbn [bestScore] in *; lia.
Qed.

Lemma keep_best_fold_bound outs res :
  Forall (fun o => snd o <= bestScore (fold_left keep_best outs res)) outs.
Proof.
  revert res. induction outs as [| o outs IH]; intros res; [constructor |].
  cbn [fold_left]. constructor; [| apply IH].
  pose proof (keep_best_fold_monotone outs (keep_best res o)) as H.
  assert (Ho : snd o <= bestScore (keep_best res o)).
  { unfold keep_best. destruct (Z.gtb_spec (snd o) (bestScore res)); cbn [bestScore]; lia. }
  lia.
Qed.

(** X12. With at least one restart, the score the search reports for a
    block of [n] values ([n] an [int]) lies between the ceiling of [n / 2]
    and [n]. *)
Theorem searchBestListID_score_bounds :
  forall (RS : RandomSource) (block : list Z) (cfg : SearchConfig) (rngSeed : Z),
    1 <= restarts cfg ->
    int_sized block ->
    (Z.of_nat (length block) + 1) / 2 <= bestScore (searchBestListID block cfg rngSeed)
      <= Z.of_nat (length block).
Proof. intros RS. exact search_bounds. Qed.

Lemma sample_config_restarts : 1 <= restarts sample_config.
Proof. simpl. lia. Qed.

Lemma searchBestListID_score_bounds_witness :
  1 <= restarts sample_config /\
  int_sized sample_block /\
  (Z.of_nat (length sample_block) + 1) / 2
    <= bestScore (searchBestListID sample_block sample_config default_seed)
    <= Z.of_nat (length sample_block).
Proof.
  split; [exact sample_config_restarts |]. split; [exact sample_block_int_sized |].
  exact (searchBestListID_score_bounds mt19937_64 sample_block sample_config default_seed
           sample_config_restarts sample_block_int_sized).
Defined.

(** X13. The score -1 marks the search that made no restart, and nothing
    else: on a block of [int] size the score reported is -1 exactly when
    [restarts <= 0]. *)
Theorem searchBestListID_sentinel :
  forall (RS : RandomSource) (block : list Z) (cfg : SearchConfig) (rngSeed : Z),
    int_sized block ->
    (bestScore (searchBestListID block cfg rngSeed) = -1 <-> restarts cfg <= 0).
Proof.
  intros RS block cfg rngSeed Hn. split.
  - intros E. destruct (Z_le_gt_dec (restarts cfg) 0) as [H | H]; [exact H | exfalso].
    pose proof (search_bounds block cfg rngSeed ltac:(lia) Hn) as [Hlo _].
    assert (0 <= (Z.of_nat (length block) + 1) / 2) by (apply Z.div_pos; lia).
    lia.
  - intros H. unfold searchBestListID. now rewrite for_range_none by exact H.
Qed.

Lemma searchBestListID_sentinel_witness :
  int_sized sample_block /\
  (bestScore (searchBestListID sample_block sample_config default_seed) = -1 <->
   restarts sample_config <= 0).
Proof.
  split; [exact sample_block_int_sized |].
  exact (searchBestListID_sentinel mt19937_64 sample_block sample_config default_seed
           sample_block_int_sized).
Defined.

(** X14. The key the search reports is a 32-bit value, for every block,
    configuration and seed. *)
Theorem searchBestListID_key_32bit :
  forall (RS : RandomSource) (block : list Z) (cfg : SearchConfig) (rngSeed : Z),
    is_u32 (bestID (searchBestListID block cfg rngSeed)).
Proof. intros RS. exact search_is_u32. Qed.

(** X15. The score the search reports is at least the score of every
    starting key it drew, and at least the score every hillclimb ended
    with. *)
Theorem searchBestListID_beats_every_start :
  forall (RS : RandomSource) (block : list Z) (cfg : SearchConfig) (rngSeed : Z),
    Forall (fun start =>
              score_list start block <= bestScore (searchBestListID block cfg rngSeed))
           (restart_starts (Z.to_nat (restarts cfg)) (rng_init rngSeed)) /\
    Forall (fun out => snd out <= bestScore (searchBestListID block cfg rngSeed))
           (restart_outcomes block cfg (Z.to_nat (restarts cfg)) (rng_init rngSeed)).
Proof.
  intros RS block cfg rngSeed. rewrite searchBestListID_outcomes.
  pose proof (keep_best_fold_bound
                (restart_outcomes block cfg (Z.to_nat (restarts cfg)) (rng_init rngSeed))
                default_result) as H.
  split; [| exact H].
  rewrite restart_outcomes_starts in *. rewrite Forall_map in H.
  eapply Forall_impl; [| exact H]. cbn beta. intros start Hs.
  pose proof (hillclimb_monotone block cfg start). lia.
Qed.

(** X16. More restarts never give a lower score: with the same block, seed
    and number of passes, the search with more restarts reports a score at
    least as high. *)
Theorem searchBestListID_more_restarts :
  forall (RS : RandomSource) (block : list Z) (cfg cfg' : SearchConfig) (rngSeed : Z),
    hillIters cfg = hillIters cfg' ->
    restarts cfg <= restarts cfg' ->
    bestScore (searchBestListID block cfg rngSeed)
      <= bestScore (searchBestListID block cfg' rngSeed).
Proof.
  intros RS block cfg cfg' rngSeed Hh Hr. rewrite !searchBestListID_outcomes.
  rewrite (restart_outcomes_config block cfg cfg' _ _ Hh), !restart_outcomes_starts.
  destruct (restart_starts_prefix (Z.to_nat (restarts cfg)) (Z.to_nat (restarts cfg'))
              (rng_init rngSeed) ltac:(lia)) as [more ->].
  rewrite map_app, fold_left_app. apply keep_best_fold_monotone.
Qed.

Lemma searchBestListID_more_restarts_witness :
  hillIters sample_config = hillIters main_like_config /\
  restarts sample_config <= restarts main_like_config /\
  bestScore (searchBestListID sample_block sample_config default_seed)
    <= bestScore (searchBestListID sample_block main_like_config default_seed).
Proof.
  assert (Hh : hillIters sample_config = hillIters main_like_config) by reflexivity.
  assert (Hr : restarts sample_config <= restarts main_like_config) by (simpl; lia).
  split; [exact Hh |]. split; [exact Hr |].
  exact (searchBestListID_more_restarts mt19937_64 sample_block sample_config
           main_like_config default_seed Hh Hr).
Defined.

(** X17. The flag [tryAllBits] of the configuration is never read: two
    configurations with the same [restarts] and [hillIters] give the same
    result. *)
Theorem searchBestListID_ignores_tryAllBits :
  forall (RS : RandomSource) (block : list Z) (cfg cfg' : SearchConfig) (rngSeed : Z),
    restarts cfg = restarts cfg' ->
    hillIters cfg = hillIters cfg' ->
    searchBestListID block cfg rngSeed = searchBestListID block cfg' rngSeed.
Proof. intros RS. exact search_config. Qed.

Lemma searchBestListID_ignores_tryAllBits_witness :
  restarts sample_config = restarts subset_config /\
  hillIters sample_config = hillIters subset_config /\
  tryAllBits sample_config <> tryAllBits subset_config /\
  searchBestListID sample_block sample_config default_seed =
    searchBestListID sample_block subset_config default_seed.
Proof.
  split; [reflexivity |]. split; [reflexivity |]. split; [discriminate |].
  exact (searchBestListID_ignores_tryAllBits mt19937_64 sample_block sample_config
           subset_config default_seed eq_refl eq_refl).
Defined.

Section SearchEdges.

Context {RS : RandomSource}.

Lemma restart_starts_first n g :
  restart_starts (Datatypes.S n) g =
  u32 (fst (dist32 g)) :: restart_starts n (snd (dist32 g)).
Proof. cbn [restart_starts]. now destruct (dist32 g). Qed.

Lemma keep_best_ties starts n res :
  bestScore res = n ->
  fold_left keep_best (map (fun s : Z => (s, n)) starts) res = res.
Proof.
  intros E. induction starts as [| s l IH]; [reflexivity |].
  cbn [map fold_left]. unfold keep_best at 2. cbn [fst snd].
  rewrite E, Z.gtb_ltb, Z.ltb_irrefl. exact IH.
Qed.

Lemma search_constant_block v n cfg rngSeed :
  1 <= restarts cfg -> Z.of_nat n <= INT_MAX ->
  searchBestListID (repeat v n) cfg rngSeed =
  {| bestID := u32 (fst (dist32 (rng_init rngSeed))); bestScore := Z.of_nat n |}.
Proof.
  intros Hr Hn. rewrite searchBestListID_outcomes, restart_outcomes_starts.
  rewrite (map_ext (hillclimb (repeat v n) cfg) (fun s => (s, Z.of_nat n))).
  2:{ intros s. rewrite hillclimb_fixed by now apply local_optimum_constant_block.
      now rewrite score_list_repeat. }
  replace (Z.to_nat (restarts cfg)) with (Datatypes.S (Z.to_nat (restarts cfg - 1))) by lia.
  rewrite restart_starts_first. cbn [map fold_left].
  unfold keep_best at 2. cbn [fst snd default_result bestScore].
  replace (Z.of_nat n >? -1) with true by (symmetry; rewrite Z.gtb_ltb; apply Z.ltb_lt; lia).
  now apply keep_best_ties.
Qed.

Lemma hillclimb_no_pass block cfg start :
  hillIters cfg <= 0 -> hillclimb block cfg start = (start, score_list start block).
Proof.
  intros H. unfold hillclimb, for_range_break.
  now replace (Z.to_nat (hillIters cfg - 0)) with O by lia.
Qed.

Lemma search_no_pass block cfg rngSeed :
  1 <= restarts cfg -> hillIters cfg <= 0 -> int_sized block ->
  exists pre start post,
    restart_starts (Z.to_nat (restarts cfg)) (rng_init rngSeed) = pre ++ start :: post /\
    searchBestListID block cfg rngSeed =
      {| bestID := start; bestScore := score_list start block |} /\
    Forall (fun s => score_list s block < score_list start block) pre /\
    Forall (fun s => score_list s block <= score_list start block) post.
Proof.
  intros Hr Hh Hn.
  destruct (search_first_of_best block cfg rngSeed Hr Hn)
    as (pre' & id & sc & post' & E & Eres & Hpre & Hpost).
  rewrite restart_outcomes_starts in E.
  rewrite (map_ext (hillclimb block cfg) (fun s => (s, score_list s block))) in E
    by (intros s; now apply hillclimb_no_pass).
  apply map_eq_app in E. destruct E as (pre & rest & Es & <- & Erest).
  apply map_eq_cons in Erest. destruct Erest as (start & post & -> & Estart & <-).
  injection Estart as <- <-.
  exists pre, start, post. split; [exact Es |]. split; [exact Eres |].
  rewrite Forall_map in Hpre, Hpost. split; assumption.
Qed.

End SearchEdges.

(** X18. On a block of [n] copies of one value the search reports the
    score [n] and the first key it drew: no flip and no later restart
    improves on it. *)
Theorem searchBestListID_constant_block :
  forall (RS : RandomSource) (v : Z) (n : nat) (cfg : SearchConfig) (rngSeed : Z),
    1 <= restarts cfg ->
    Z.of_nat n <= INT_MAX ->
    searchBestListID (repeat v n) cfg rngSeed =
    {| bestID := u32 (fst (dist32 (rng_init rngSeed))); bestScore := Z.of_nat n |}.
Proof. intros RS. exact search_constant_block. Qed.

Lemma searchBestListID_constant_block_witness :
  1 <= restarts sample_config /\
  Z.of_nat 64 <= INT_MAX /\
  searchBestListID (repeat 0x1234 64) sample_config default_seed =
  {| bestID := u32 (fst (dist32 (rng_init default_seed))); bestScore := Z.of_nat 64 |}.
Proof.
  assert (H : Z.of_nat 64 <= INT_MAX) by (unfold INT_MAX; simpl; lia).
  split; [exact sample_config_restarts |]. split; [exact H |].
  exact (searchBestListID_constant_block mt19937_64 0x1234 64 sample_config default_seed
           sample_config_restarts H).
Defined.

(** X19. With [hillIters <= 0] the search is a pure random search: it
    reports, with its score, the earliest of the starting keys it drew
    among those of maximal score. *)
Theorem searchBestListID_no_pass :
  forall (RS : RandomSource) (block : list Z) (cfg : SearchConfig) (rngSeed : Z),
    1 <= restarts cfg ->
    hillIters cfg <= 0 ->
    int_sized block ->
    exists pre start post,
      restart_starts (Z.to_nat (restarts cfg)) (rng_init rngSeed) = pre ++ start :: post /\
      searchBestListID block cfg rngSeed =
        {| bestID := start; bestScore := score_list start block |} /\
      Forall (fun s => score_list s block < score_list start block) pre /\
      Forall (fun s => score_list s block <= score_list start block) post.
Proof. intros RS. exact search_no_pass. Qed.

Lemma searchBestListID_no_pass_witness :
  1 <= restarts random_config /\
  hillIters random_config <= 0 /\
  int_sized sample_block /\
  exists pre start post,
    restart_starts (Z.to_nat (restarts random_config)) (rng_init default_seed) =
      pre ++ start :: post /\
    searchBestListID sample_block random_config default_seed =
      {| bestID := start; bestScore := score_list start sample_block |} /\
    Forall (fun s => score_list s sample_block < score_list start sample_block) pre /\
    Forall (fun s => score_list s sample_block <= score_list start sample_block) post.
Proof.
  assert (Hr : 1 <= restarts random_config) by (simpl; lia).
  assert (Hh : hillIters random_config <= 0) by (simpl; lia).
  split; [exact Hr |]. split; [exact Hh |]. split; [exact sample_block_int_sized |].
  exact (searchBestListID_no_pass mt19937_64 sample_block random_config default_seed
           Hr Hh sample_block_int_sized).
Defined.

(** ** The file helper *)

Section ReadFile.

Lemma resize_length v n : 0 <= n -> length (resize v n) = Z.to_nat n.
Proof.
  intros _. unfold resize. rewrite length_app, length_firstn, repeat_length.
  generalize (Z.to_nat n) (length v). intros a b.
  destruct (Nat.le_ge_cases a b); [rewrite Nat.min_l | rewrite Nat.min_r]; lia.
Qed.

Lemma set_nth_middle pre x suf y :
  MT64.set_nth (pre ++ x :: suf) (length pre) y = pre ++ y :: suf.
Proof. induction pre as [| a pre IH]; simpl; [reflexivity | now rewrite IH]. Qed.

(** A loop that stores [f i] at every index [i] of a vector overwrites the
    whole vector. *)
Lemma store_loop (f : Z -> Z) m pre suf :
  length suf = m ->
  for_loop m (Z.of_nat (length pre)) (fun i out => store out i (f i)) (pre ++ suf) =
  pre ++ map f (map Z.of_nat (seq (length pre) m)).
Proof.
  revert pre suf. induction m as [| m IH]; intros pre suf Hlen.
  - destruct suf; [reflexivity | discriminate].
  - destruct suf as [| x suf]; [discriminate |]. injection Hlen as Hlen.
    cbn [for_loop seq map]. unfold store at 2. rewrite Nat2Z.id, set_nth_middle.
    replace (pre ++ f (Z.of_nat (length pre)) :: suf)
      with ((pre ++ [f (Z.of_nat (length pre))]) ++ suf) by now rewrite <- app_assoc.
    replace (Z.of_nat (length pre) + 1)
      with (Z.of_nat (length (pre ++ [f (Z.of_nat (length pre))])))
      by (rewrite length_app; simpl; lia).
    rewrite (IH _ suf Hlen), <- app_assoc. cbn [app].
    rewrite length_app. cbn [length]. now rewrite Nat.add_1_r.
Qed.

Lemma read_loop bytes n out :
  0 <= n ->
  for_range 0 n (read_pair bytes) (resize out n) =
  map (pair_value bytes) (map Z.of_nat (seq 0 (Z.to_nat n))).
Proof.
  intros Hn. unfold for_range. rewrite Z.sub_0_r.
  exact (store_loop (pair_value bytes) (Z.to_nat n) [] (resize out n) (resize_length out n Hn)).
Qed.

Lemma read_success fs path out chars :
  fs path = Some chars ->
  read_u16_le_file fs path out =
  (true, map (pair_value (map u8 chars))
           (map Z.of_nat (seq 0 (Z.to_nat (Z.of_nat (length chars) / 2))))).
Proof.
  intros E. unfold read_u16_le_file. rewrite E, length_map, read_loop; [reflexivity |].
  apply Z.div_pos; lia.
Qed.

Lemma elem_u8 chars i :
  0 <= i < Z.of_nat (length chars) -> is_u8 (elem (map u8 chars) i).
Proof.
  intros Hi. unfold elem.
  rewrite (nth_indep _ 0 (u8 0)) by (rewrite length_map; lia).
  rewrite map_nth. apply u8_is_u8.
Qed.

(** The value of a pair of bytes, low byte first. *)
Lemma pair_value_bytes bytes i :
  is_u8 (elem bytes (2 * i)) -> is_u8 (elem bytes (2 * i + 1)) ->
  pair_value bytes i = elem bytes (2 * i) + 256 * elem bytes (2 * i + 1).
Proof.
  intros H0 H1. unfold pair_value.
  pose proof (join_bytes _ _ H1 H0) as J.
  assert (Hu : is_u16 (Z.shiftl (u16 (elem bytes (2 * i + 1))) 8)).
  { rewrite u16_small by (unfold is_u8, is_u16 in *; change (2 ^ 8) with 256 in *;
                          change (2 ^ 16) with 65536; lia).
    rewrite Z.shiftl_mul_pow2 by lia.
    unfold is_u8, is_u16 in *. change (2 ^ 8) with 256 in *.
    change (2 ^ 16) with 65536. lia. }
  rewrite (u16_small _ Hu) in J. rewrite Z.lor_comm, J. lia.
Qed.

Lemma pair_value_is_u16 bytes i : is_u16 (pair_value bytes i).
Proof. unfold pair_value, is_u16, u16. apply Z.mod_pos_bound. reflexivity. Qed.

Lemma elem_map_seq (f : Z -> Z) n i :
  0 <= i < Z.of_nat n -> elem (map f (map Z.of_nat (seq 0 n))) i = f i.
Proof.
  intros Hi. unfold elem. rewrite map_map.
  rewrite (nth_indep _ 0 (f (Z.of_nat 0))) by (rewrite length_map, length_seq; lia).
  rewrite (map_nth (fun k => f (Z.of_nat k)) (seq 0 n) O), seq_nth by lia.
  f_equal. lia.
Qed.

End ReadFile.

(** X20. A file that opens is read as 16-bit values, low byte first: the
    vector holds as many values as the file has whole pairs of bytes, the
    value of index [i] is byte [2i] plus 256 times byte [2i + 1], and each
    value is a 16-bit value. *)
Theorem read_u16_le_file_values :
  forall (fs : String.string -> option (list Z)) (path : String.string)
         (out chars : list Z),
    fs path = Some chars ->
    fst (read_u16_le_file fs path out) = true /\
    Z.of_nat (length (snd (read_u16_le_file fs path out))) = Z.of_nat (length chars) / 2 /\
    Forall is_u16 (snd (read_u16_le_file fs path out)) /\
    (forall i, 0 <= i < Z.of_nat (length chars) / 2 ->
       elem (snd (read_u16_le_file fs path out)) i =
       elem (map u8 chars) (2 * i) + 256 * elem (map u8 chars) (2 * i + 1)).
Proof.
  intros fs path out chars E. rewrite (read_success fs path out chars E). cbn [fst snd].
  assert (Hn : 0 <= Z.of_nat (length chars) / 2) by (apply Z.div_pos; lia).
  pose proof (Z.div_mod (Z.of_nat (length chars)) 2 ltac:(lia)) as Hdm.
  pose proof (Z.mod_pos_bound (Z.of_nat (length chars)) 2 ltac:(lia)) as Hm.
  split; [reflexivity |]. split; [| split].
  - rewrite !length_map, length_seq. lia.
  - rewrite map_map. apply Forall_map, Forall_forall. intros k _. apply pair_value_is_u16.
  - intros i Hi. rewrite elem_map_seq by lia.
    apply pair_value_bytes; apply elem_u8; lia.
Qed.

Lemma read_u16_le_file_values_witness :
  one_file Sample.path Sample.chars Sample.path = Some Sample.chars /\
  fst (read_u16_le_file (one_file Sample.path Sample.chars) Sample.path [7; 7; 7; 7])
    = true.
Proof.
  split; [reflexivity |].
  exact (proj1 (read_u16_le_file_values (one_file Sample.path Sample.chars)
                  Sample.path [7; 7; 7; 7] Sample.chars eq_refl)).
Defined.

(** X21. A file that does not open leaves the vector as it was and the
    call returns false; a file that opens overwrites the vector entirely:
    the values read do not depend on what the vector held before. *)
Theorem read_u16_le_file_overwrites :
  forall (fs : String.string -> option (list Z)) (path : String.string) (out out' : list Z),
    (fs path = None -> read_u16_le_file fs path out = (false, out)) /\
    (fs path <> None ->
       fst (read_u16_le_file fs path out) = true /\
       snd (read_u16_le_file fs path out) = snd (read_u16_le_file fs path out')).
Proof.
  intros fs path out out'. split.
  - intros E. unfold read_u16_le_file. now rewrite E.
  - intros H. destruct (fs path) as [chars |] eqn:E; [| contradiction].
    now rewrite (read_success fs path out chars E), (read_success fs path out' chars E).
Qed.

Section LittleEndian.

Lemma u16_le_bytes_u8 v :
  is_u16 v ->
  Z.land v 0xFF = v mod 256 /\ Z.shiftr v 8 = v / 256 /\
  is_u8 (v mod 256) /\ is_u8 (v / 256).
Proof.
  intros Hv. pose proof (low_byte v) as Hlo. pose proof (high_byte v Hv) as Hhi.
  assert (H1 : is_u8 (v mod 256)) by (rewrite <- Hlo; apply u8_is_u8).
  assert (H2 : is_u8 (v / 256)) by (rewrite <- Hhi; apply u8_is_u8).
  repeat split; try apply H1; try apply H2.
  - change 0xFF with (Z.ones 8). now rewrite Z.land_ones by lia.
  - now rewrite Z.shiftr_div_pow2 by lia.
Qed.

Lemma u16_le_bytes_map_u8 vs :
  Forall is_u16 vs -> map u8 (flat_map u16_le_bytes vs) = flat_map u16_le_bytes vs.
Proof.
  induction 1 as [| v vs Hv _ IH]; [reflexivity |].
  cbn [flat_map u16_le_bytes app map]. rewrite IH.
  destruct (u16_le_bytes_u8 v Hv) as (-> & -> & H1 & H2).
  now rewrite !u8_small.
Qed.

Lemma u16_le_bytes_length vs : length (flat_map u16_le_bytes vs) = (2 * length vs)%nat.
Proof. induction vs as [| v vs IH]; [reflexivity |]. cbn [flat_map u16_le_bytes app length]. lia. Qed.

Lemma pair_value_le pre vs k :
  Forall is_u16 vs -> length pre = (2 * k)%nat ->
  map (pair_value (pre ++ flat_map u16_le_bytes vs)) (map Z.of_nat (seq k (length vs))) = vs.
Proof.
  intros Hvs. revert pre k. induction Hvs as [| v vs Hv _ IH]; intros pre k Hpre.
  - reflexivity.
  - cbn [length seq map flat_map u16_le_bytes app]. f_equal.
    + destruct (u16_le_bytes_u8 v Hv) as (Elo & Ehi & H1 & H2).
      assert (E0 : elem (pre ++ Z.land v 0xFF :: Z.shiftr v 8 :: flat_map u16_le_bytes vs)
                     (2 * Z.of_nat k) = v mod 256).
      { unfold elem. replace (Z.to_nat (2 * Z.of_nat k)) with (length pre) by lia.
        now rewrite nth_middle. }
      assert (E1 : elem (pre ++ Z.land v 0xFF :: Z.shiftr v 8 :: flat_map u16_le_bytes vs)
                     (2 * Z.of_nat k + 1) = v / 256).
      { unfold elem.
        replace (Z.to_nat (2 * Z.of_nat k + 1)) with (length (pre ++ [Z.land v 0xFF]))
          by (rewrite length_app; cbn [length]; lia).
        replace (pre ++ Z.land v 0xFF :: Z.shiftr v 8 :: flat_map u16_le_bytes vs)
          with ((pre ++ [Z.land v 0xFF]) ++ Z.shiftr v 8 :: flat_map u16_le_bytes vs)
          by now rewrite <- app_assoc.
        now rewrite nth_middle. }
      rewrite pair_value_bytes by (rewrite ?E0, ?E1; assumption).
      rewrite E0, E1. pose proof (Z.div_mod v 256 ltac:(lia)). lia.
    + replace (pre ++ Z.land v 0xFF :: Z.shiftr v 8 :: flat_map u16_le_bytes vs)
        with ((pre ++ [Z.land v 0xFF; Z.shiftr v 8]) ++ flat_map u16_le_bytes vs)
        by now rewrite <- app_assoc.
      apply IH. rewrite length_app. cbn [length]. lia.
Qed.

Lemma read_round_trip fs path out vs :
  Forall is_u16 vs ->
  fs path = Some (flat_map u16_le_bytes vs) ->
  read_u16_le_file fs path out = (true, vs).
Proof.
  intros Hvs E. rewrite (read_success fs path out _ E), (u16_le_bytes_map_u8 vs Hvs).
  rewrite u16_le_bytes_length.
  replace (Z.to_nat (Z.of_nat (2 * length vs) / 2)) with (length vs).
  - f_equal. exact (pair_value_le [] vs 0 Hvs eq_refl).
  - rewrite Nat2Z.inj_mul, Z.mul_comm, Z.div_mul by lia. now rewrite Nat2Z.id.
Qed.

Lemma pair_value_app bytes more i :
  0 <= i -> 2 * i + 1 < Z.of_nat (length bytes) ->
  pair_value (bytes ++ more) i = pair_value bytes i.
Proof.
  intros H0 H1. unfold pair_value, elem. now rewrite !app_nth1 by lia.
Qed.

Lemma read_odd_tail fs fs' path path' out out' chars c :
  Nat.even (length chars) = true ->
  fs path = Some (chars ++ [c]) ->
  fs' path' = Some chars ->
  read_u16_le_file fs path out = read_u16_le_file fs' path' out'.
Proof.
  intros Heven E E'. rewrite (read_success fs path out _ E), (read_success fs' path' out' _ E').
  apply Nat.even_spec in Heven. destruct Heven as [h Hh].
  rewrite length_app. cbn [length]. rewrite Hh.
  replace (Z.of_nat (2 * h + 1) / 2) with (Z.of_nat h)
    by (apply (Z.div_unique _ _ _ 1); lia).
  replace (Z.of_nat (2 * h) / 2) with (Z.of_nat h)
    by (apply (Z.div_unique _ _ _ 0); lia).
  f_equal. rewrite map_app. apply map_ext_in. intros i Hi.
  apply in_map_iff in Hi. destruct Hi as (k & <- & Hk). apply in_seq in Hk.
  apply pair_value_app; [lia |]. rewrite length_map. lia.
Qed.

End LittleEndian.

(** X22. Reading the file made of the bytes of a list of 16-bit values,
    each value low byte first, gives back the list. *)
Theorem read_u16_le_file_round_trip :
  forall (fs : String.string -> option (list Z)) (path : String.string)
         (out values : list Z),
    Forall is_u16 values ->
    fs path = Some (flat_map u16_le_bytes values) ->
    read_u16_le_file fs path out = (true, values).
Proof. exact read_round_trip. Qed.

Lemma read_u16_le_file_round_trip_witness :
  Forall is_u16 [0x1234; 0xFFFF; 0] /\
  read_u16_le_file (one_file Sample.path (flat_map u16_le_bytes [0x1234; 0xFFFF; 0]))
    Sample.path [7; 7] = (true, [0x1234; 0xFFFF; 0]).
Proof.
  assert (H : Forall is_u16 [0x1234; 0xFFFF; 0]).
  { repeat constructor; unfold is_u16; simpl; lia. }
  split; [exact H |].
  exact (read_u16_le_file_round_trip
           (one_file Sample.path (flat_map u16_le_bytes [0x1234; 0xFFFF; 0]))
           Sample.path [7; 7] [0x1234; 0xFFFF; 0] H eq_refl).
Defined.

(** X23. A file of odd size is read as the file without its last byte: the
    byte that has no partner is dropped. *)
Theorem read_u16_le_file_odd_size :
  forall (fs fs' : String.string -> option (list Z)) (path path' : String.string)
         (out out' chars : list Z) (c : Z),
    Nat.even (length chars) = true ->
    fs path = Some (chars ++ [c]) ->
    fs' path' = Some chars ->
    read_u16_le_file fs path out = read_u16_le_file fs' path' out'.
Proof. exact read_odd_tail. Qed.

Lemma read_u16_le_file_odd_size_witness :
  Nat.even (length [0x34; 0x12]) = true /\
  read_u16_le_file (one_file Sample.path ([0x34; 0x12] ++ [0xFF])) Sample.path [] =
  read_u16_le_file (one_file Sample.path [0x34; 0x12]) Sample.path [].
Proof.
  split; [reflexivity |].
  exact (read_u16_le_file_odd_size
           (one_file Sample.path ([0x34; 0x12] ++ [0xFF]))
           (one_file Sample.path [0x34; 0x12])
           Sample.path Sample.path [] [] [0x34; 0x12] 0xFF eq_refl eq_refl eq_refl).
Defined.

(** ** The loop of [main] over the blocks *)

Section Slices.

Lemma firstn_plus (n m : nat) (l : list Z) :
  firstn (n + m) l = firstn n l ++ firstn m (skipn n l).
Proof.
  revert l. induction n as [| n IH]; intros l; [reflexivity |].
  destruct l as [| x l]; cbn [Nat.add firstn skipn app].
  - now rewrite firstn_nil.
  - now rewrite IH.
Qed.

(** The block of index [bi], when it ends inside the data. *)
Lemma main_block_inside data blockLen bi :
  0 < blockLen -> 0 <= bi ->
  (bi + 1) * blockLen <= Z.of_nat (length data) ->
  Z.of_nat (length data) < 2 ^ 64 ->
  main_block data blockLen bi =
    firstn (Z.to_nat blockLen) (skipn (Z.to_nat (bi * blockLen)) data) /\
  Z.of_nat (length (main_block data blockLen bi)) = blockLen.
Proof.
  intros HL Hbi Hend Hsize. unfold main_block, slice, u64.
  rewrite !Z.mod_small by nia.
  replace ((bi + 1) * blockLen - bi * blockLen) with blockLen by ring.
  split; [reflexivity |].
  rewrite length_firstn, length_skipn.
  assert (Z.of_nat (length data) - bi * blockLen >= blockLen) by nia.
  rewrite Nat.min_l; lia.
Qed.

Lemma max_blocks_inside (data : list Z) blockLen blocksToTest bi :
  0 < blockLen ->
  0 <= bi < Z.min blocksToTest (Z.of_nat (length data) / blockLen) ->
  (bi + 1) * blockLen <= Z.of_nat (length data).
Proof.
  intros HL Hbi.
  pose proof (Z.mul_div_le (Z.of_nat (length data)) blockLen HL).
  assert (bi + 1 <= Z.of_nat (length data) / blockLen) by lia.
  nia.
Qed.

Lemma main_blocks_concat data blockLen k i :
  0 < blockLen -> 0 <= i ->
  (i + Z.of_nat k) * blockLen <= Z.of_nat (length data) ->
  Z.of_nat (length data) < 2 ^ 64 ->
  concat (map (main_block data blockLen) (count_from k i)) =
  firstn (Z.to_nat (Z.of_nat k * blockLen)) (skipn (Z.to_nat (i * blockLen)) data).
Proof.
  intros HL. revert i. induction k as [| k IH]; intros i Hi Hend Hsize.
  - reflexivity.
  - cbn [count_from map concat].
    destruct (main_block_inside data blockLen i HL Hi ltac:(nia) Hsize) as [-> _].
    rewrite IH by nia.
    replace (Z.to_nat (Z.of_nat (Datatypes.S k) * blockLen))
      with (Z.to_nat blockLen + Z.to_nat (Z.of_nat k * blockLen))%nat by nia.
    rewrite firstn_plus, skipn_skipn. do 3 f_equal. nia.
Qed.

End Slices.

Section MainLoop.

Context {RS : RandomSource}.

Variable data : list Z.
Variable blockLen : Z.

Lemma main_body_printed bi st :
  printed (main_body data blockLen bi st) = printed st ++ [main_line data blockLen bi].
Proof. unfold main_body, main_line. now destruct (_ >? _). Qed.

Lemma main_body_best bi st :
  best_of (main_body data blockLen bi st) =
  keep_best (best_of st)
    (bestID (snd (main_line data blockLen bi)), bestScore (snd (main_line data blockLen bi))).
Proof.
  unfold main_body, main_line, keep_best, best_of. cbn [fst snd bestScore].
  now destruct (_ >? _).
Qed.

Lemma main_loop_printed n i st :
  printed (for_loop n i (main_body data blockLen) st) =
  printed st ++ map (main_line data blockLen) (count_from n i).
Proof.
  revert i st. induction n as [| n IH]; intros i st.
  - simpl. now rewrite app_nil_r.
  - cbn [for_loop count_from map]. rewrite IH, main_body_printed, <- app_assoc. reflexivity.
Qed.

Lemma main_loop_best n i st :
  best_of (for_loop n i (main_body data blockLen) st) =
  fold_left keep_best
    (map (fun line : Z * SearchResult => (bestID (snd line), bestScore (snd line)))
         (map (main_line data blockLen) (count_from n i)))
    (best_of st).
Proof.
  revert i st. induction n as [| n IH]; intros i st; [reflexivity |].
  cbn [for_loop count_from map fold_left]. now rewrite IH, main_body_best.
Qed.

Lemma count_from_range n i x : In x (count_from n i) -> i <= x < i + Z.of_nat n.
Proof.
  revert i. induction n as [| n IH]; intros i; [intros [] |].
  cbn [count_from]. intros [<- | H]; [lia |]. apply IH in H. lia.
Qed.

End MainLoop.

Section MainResults.

Context {RS : RandomSource}.

Lemma main_blocks_printed data blockLen blocksToTest :
  printed (main_blocks data blockLen blocksToTest) =
  map (main_line data blockLen)
    (count_from (Z.to_nat (Z.min blocksToTest (Z.of_nat (length data) / blockLen))) 0).
Proof.
  unfold main_blocks, for_range. rewrite Z.sub_0_r.
  now rewrite main_loop_printed.
Qed.

Lemma main_line_bounds data blockLen blocksToTest line :
  0 < blockLen <= INT_MAX ->
  Z.of_nat (length data) < 2 ^ 64 ->
  In line (printed (main_blocks data blockLen blocksToTest)) ->
  (blockLen + 1) / 2 <= bestScore (snd line) <= blockLen.
Proof.
  intros HL Hsize Hin. rewrite main_blocks_printed in Hin.
  apply in_map_iff in Hin. destruct Hin as (bi & <- & Hbi).
  apply count_from_range in Hbi.
  destruct (main_block_inside data blockLen bi ltac:(lia) ltac:(lia)
              (max_blocks_inside data blockLen blocksToTest bi ltac:(lia) ltac:(lia)) Hsize)
    as [_ Hlen].
  unfold main_line. cbn [snd]. rewrite <- Hlen at 1 4.
  apply search_bounds; [simpl; lia |]. unfold int_sized. lia.
Qed.

Lemma main_blocks_best data blockLen blocksToTest :
  0 < blockLen <= INT_MAX ->
  Z.of_nat (length data) < 2 ^ 64 ->
  1 <= Z.min blocksToTest (Z.of_nat (length data) / blockLen) ->
  exists pre bi r post,
    printed (main_blocks data blockLen blocksToTest) = pre ++ (bi, r) :: post /\
    bestEver (main_blocks data blockLen blocksToTest) = bestScore r /\
    bestEverID (main_blocks data blockLen blocksToTest) = bestID r /\
    Forall (fun line => bestScore (snd line) < bestScore r) pre /\
    Forall (fun line => bestScore (snd line) <= bestScore r) post.
Proof.
  intros HL Hsize Hblocks.
  pose proof (fun line => main_line_bounds data blockLen blocksToTest line HL Hsize)
    as Hbounds.
  pose proof (main_blocks_printed data blockLen blocksToTest) as Hprinted.
  assert (Hbest : best_of (main_blocks data blockLen blocksToTest) =
                  fold_left keep_best
                    (map (fun line : Z * SearchResult =>
                            (bestID (snd line), bestScore (snd line)))
                         (printed (main_blocks data blockLen blocksToTest)))
                    default_result).
  { rewrite Hprinted. unfold main_blocks, for_range. rewrite Z.sub_0_r.
    now rewrite main_loop_best. }
  destruct (keep_best_first
              (map (fun line : Z * SearchResult => (bestID (snd line), bestScore (snd line)))
                   (printed (main_blocks data blockLen blocksToTest)))
              default_result)
    as [[_ Hall] | (pre' & id & sc & post' & E & Eres & _ & Hpre & Hpost)].
  - exfalso. rewrite Forall_map in Hall.
    destruct (printed (main_blocks data blockLen blocksToTest)) as [| line lines] eqn:El.
    + apply (f_equal (@length _)) in Hprinted. rewrite length_map in Hprinted.
      assert (Hc : forall n i, length (count_from n i) = n).
      { induction n as [| n IHn]; intros i; [reflexivity |]. simpl. now rewrite IHn. }
      rewrite Hc in Hprinted. simpl in Hprinted. lia.
    + inversion Hall as [| ? ? H1 _]; subst. cbn [snd default_result bestScore] in H1.
      pose proof (Hbounds line (or_introl eq_refl)) as [Hlo _].
      assert (0 <= (blockLen + 1) / 2) by (apply Z.div_pos; lia). lia.
  - apply map_eq_app in E. destruct E as (pre & rest & Es & <- & Erest).
    apply map_eq_cons in Erest. destruct Erest as ([bi r] & post & -> & Er & <-).
    cbn [snd] in Er. injection Er as <- <-.
    rewrite <- Hbest in Eres. unfold best_of in Eres. injection Eres as Eid Esc.
    exists pre, bi, r, post. rewrite Forall_map in Hpre, Hpost. cbn [snd] in Hpre, Hpost.
    repeat split; assumption.
Qed.

End MainResults.

(** X24. [main] prints one line per block index from 0, in order: the
    result of the search on the slice of the data from [bi * blockLen] to
    [(bi + 1) * blockLen], seeded with 0xC0FFEE123456789 + bi.  Every slice
    lies inside the data and holds exactly [blockLen] values. *)
Theorem main_blocks_lines :
  forall (RS : RandomSource) (data : list Z) (blockLen blocksToTest : Z),
    0 < blockLen ->
    Z.of_nat (length data) < 2 ^ 64 ->
    printed (main_blocks data blockLen blocksToTest) =
      map (main_line data blockLen)
        (count_from (Z.to_nat (Z.min blocksToTest (Z.of_nat (length data) / blockLen))) 0) /\
    (forall bi,
       0 <= bi < Z.min blocksToTest (Z.of_nat (length data) / blockLen) ->
       (bi + 1) * blockLen <= Z.of_nat (length data) /\
       main_block data blockLen bi =
         firstn (Z.to_nat blockLen) (skipn (Z.to_nat (bi * blockLen)) data) /\
       Z.of_nat (length (main_block data blockLen bi)) = blockLen).
Proof.
  intros RS data blockLen blocksToTest HL Hsize. split; [apply main_blocks_printed |].
  intros bi Hbi.
  pose proof (max_blocks_inside data blockLen blocksToTest bi HL Hbi) as Hend.
  split; [exact Hend |].
  apply main_block_inside; [exact HL | lia | exact Hend | exact Hsize].
Qed.

Lemma sample_data_size : Z.of_nat (length sample_data) < 2 ^ 64.
Proof. vm_compute. reflexivity. Qed.

Lemma main_blocks_lines_witness :
  0 < 3 /\
  Z.of_nat (length sample_data) < 2 ^ 64 /\
  printed (main_blocks sample_data 3 50) =
    map (main_line sample_data 3)
      (count_from (Z.to_nat (Z.min 50 (Z.of_nat (length sample_data) / 3))) 0).
Proof.
  split; [lia |]. split; [exact sample_data_size |].
  exact (proj1 (main_blocks_lines mt19937_64 sample_data 3 50 ltac:(lia) sample_data_size)).
Defined.

(** X25. The blocks [main] searches are consecutive and do not overlap:
    every line printed holds the result of the search on the block of its
    index, and the blocks of the lines printed, put end to end in the order
    of the lines, are the first [maxBlocks * blockLen] values of the data;
    no line is printed for what follows them. *)
Theorem main_blocks_partition :
  forall (RS : RandomSource) (data : list Z) (blockLen blocksToTest : Z),
    0 < blockLen ->
    0 <= blocksToTest ->
    Z.of_nat (length data) < 2 ^ 64 ->
    Forall (fun line =>
              snd line =
              searchBestListID (main_block data blockLen (fst line)) main_config
                (u64 (default_seed + fst line)))
           (printed (main_blocks data blockLen blocksToTest)) /\
    concat (map (fun line => main_block data blockLen (fst line))
              (printed (main_blocks data blockLen blocksToTest))) =
    firstn (Z.to_nat (Z.min blocksToTest (Z.of_nat (length data) / blockLen) * blockLen))
      data.
Proof.
  intros RS data blockLen blocksToTest HL HT Hsize.
  rewrite main_blocks_printed. split.
  - apply Forall_map, Forall_forall. intros bi _. reflexivity.
  - rewrite map_map. cbn [main_line fst].
    assert (Hq : 0 <= Z.of_nat (length data) / blockLen) by (apply Z.div_pos; lia).
    pose proof (Z.mul_div_le (Z.of_nat (length data)) blockLen HL) as Hle.
    rewrite main_blocks_concat; [| exact HL | lia | | exact Hsize].
    + rewrite Z2Nat.id by lia. reflexivity.
    + rewrite Z2Nat.id by lia. nia.
Qed.

Lemma main_blocks_partition_witness :
  0 < 3 /\ 0 <= 50 /\
  Z.of_nat (length sample_data) < 2 ^ 64 /\
  concat (map (fun line => main_block sample_data 3 (fst line))
            (printed (main_blocks sample_data 3 50))) =
  firstn (Z.to_nat (Z.min 50 (Z.of_nat (length sample_data) / 3) * 3)) sample_data.
Proof.
  split; [lia |]. split; [lia |]. split; [exact sample_data_size |].
  exact (proj2 (main_blocks_partition mt19937_64 sample_data 3 50
                  ltac:(lia) ltac:(lia) sample_data_size)).
Defined.

(** X26. When at least one block is searched, [bestEver] and [bestEverID]
    are the score and the key of the earliest printed line among those of
    maximal score, and every score printed, [bestEver] included, lies
    between the ceiling of [blockLen / 2] and [blockLen]. *)
Theorem main_blocks_best_ever :
  forall (RS : RandomSource) (data : list Z) (blockLen blocksToTest : Z),
    0 < blockLen <= INT_MAX ->
    Z.of_nat (length data) < 2 ^ 64 ->
    1 <= Z.min blocksToTest (Z.of_nat (length data) / blockLen) ->
    (exists pre bi r post,
       printed (main_blocks data blockLen blocksToTest) = pre ++ (bi, r) :: post /\
       bestEver (main_blocks data blockLen blocksToTest) = bestScore r /\
       bestEverID (main_blocks data blockLen blocksToTest) = bestID r /\
       Forall (fun line => bestScore (snd line) < bestScore r) pre /\
       Forall (fun line => bestScore (snd line) <= bestScore r) post) /\
    Forall (fun line => (blockLen + 1) / 2 <= bestScore (snd line) <= blockLen)
      (printed (main_blocks data blockLen blocksToTest)) /\
    (blockLen + 1) / 2 <= bestEver (main_blocks data blockLen blocksToTest) <= blockLen.
Proof.
  intros RS data blockLen blocksToTest HL Hsize Hblocks.
  pose proof (main_blocks_best data blockLen blocksToTest HL Hsize Hblocks) as Hbest.
  pose proof (fun line => main_line_bounds data blockLen blocksToTest line HL Hsize)
    as Hbounds.
  split; [exact Hbest |]. split.
  - apply Forall_forall. exact Hbounds.
  - destruct Hbest as (pre & bi & r & post & E & -> & _ & _ & _).
    apply (Hbounds (bi, r)). rewrite E. apply in_elt.
Qed.

Lemma main_blocks_best_ever_witness :
  0 < 3 <= INT_MAX /\
  Z.of_nat (length sample_data) < 2 ^ 64 /\
  1 <= Z.min 50 (Z.of_nat (length sample_data) / 3) /\
  (3 + 1) / 2 <= bestEver (main_blocks sample_data 3 50) <= 3.
Proof.
  assert (HL : 0 < 3 <= INT_MAX) by (unfold INT_MAX; simpl; lia).
  assert (Hb : 1 <= Z.min 50 (Z.of_nat (length sample_data) / 3)) by (vm_compute; discriminate).
  split; [exact HL |]. split; [exact sample_data_size |]. split; [exact Hb |].
  exact (proj2 (proj2 (main_blocks_best_ever mt19937_64 sample_data 3 50 HL
                         sample_data_size Hb))).
Defined.

(** ** The round function and the key *)

Section KeyBytes.

(** The byte of the key a round reads is made of the eight bits of the key
    from position [round * 8] on. *)
Lemma key_byte_bits k k' round :
  0 <= round ->
  (forall n, 0 <= n < 8 -> Z.testbit k (n + round * 8) = Z.testbit k' (n + round * 8)) ->
  Z.land (Z.shiftr k (round * 8)) 0xFF = Z.land (Z.shiftr k' (round * 8)) 0xFF.
Proof.
  intros Hr Hbits. change 0xFF with (Z.ones 8). rewrite !Z.land_ones by lia.
  apply Z.bits_inj'. intros n Hn.
  destruct (Z_lt_ge_dec n 8) as [Hlt | Hge].
  - rewrite !Z.mod_pow2_bits_low, !Z.shiftr_spec by lia. apply Hbits. lia.
  - now rewrite !Z.mod_pow2_bits_high by lia.
Qed.

Lemma F_key_bits r k k' round :
  0 <= round ->
  (forall n, 0 <= n < 8 -> Z.testbit k (n + round * 8) = Z.testbit k' (n + round * 8)) ->
  F r k round = F r k' round.
Proof.
  intros Hr Hbits. unfold F. now rewrite (key_byte_bits k k' round Hr Hbits).
Qed.

End KeyBytes.

(** X27. A round of the permutation reads one byte of the key only: the
    round function takes the same value under two keys that agree on the
    bits [round * 8 .. round * 8 + 7], so that flipping the bit [b] of a
    key leaves the round function of every round but [b / 8] unchanged. *)
Theorem F_reads_one_key_byte :
  forall r k k' round : Z,
    0 <= round ->
    ((forall n, 0 <= n < 8 -> Z.testbit k (n + round * 8) = Z.testbit k' (n + round * 8)) ->
     F r k round = F r k' round) /\
    (forall b, 0 <= b < 32 -> round <> b / 8 -> F r (flip_bit k b) round = F r k round).
Proof.
  intros r k k' round Hr. split; [now apply F_key_bits |].
  intros b Hb Hne. apply F_key_bits; [exact Hr |].
  intros n Hn. rewrite flip_bit_testbit by lia.
  destruct (Z.eqb_spec (n + round * 8) b) as [E | _]; [| apply xorb_false_r].
  exfalso. apply Hne. apply (Z.div_unique b 8 round n); lia.
Qed.

Lemma F_reads_one_key_byte_witness :
  0 <= 2 /\ F 0x5A (flip_bit 0xDEADBEEF 3) 2 = F 0x5A 0xDEADBEEF 2.
Proof.
  split; [lia |].
  apply (proj2 (F_reads_one_key_byte 0x5A 0xDEADBEEF 0 2 ltac:(lia)) 3); [lia |].
  vm_compute. discriminate.
Defined.

(** ** Blocks longer than an [int] can count *)

Section BeyondInt.

Lemma beyond_int_value : Z.of_nat beyond_int = 2 ^ 31.
Proof. unfold beyond_int. apply Z2Nat.id, Z.pow_nonneg. lia. Qed.

Lemma to_int_wraps :
  to_int 0 = 0 /\ to_int (2 ^ 31) = - 2 ^ 31 /\ to_int (2 ^ 31 + 0) = - 2 ^ 31.
Proof. vm_compute. repeat split. Qed.

Lemma hasValue_samples :
  hasValue 0 1 = false /\ hasValue 0 3 = true /\
  hasValue 779670154 1 = false /\ hasValue 779670154 3 = true.
Proof. vm_compute. repeat split. Qed.

Lemma count_members_non_members : count_members 0 non_members_block = 0.
Proof.
  unfold non_members_block. rewrite count_members_repeat.
  now rewrite (proj1 hasValue_samples).
Qed.

Lemma non_members_block_length : Z.of_nat (length non_members_block) = 2 ^ 31.
Proof. unfold non_members_block. rewrite repeat_length. apply beyond_int_value. Qed.

Lemma score_non_members_block : score_list 0 non_members_block = 0.
Proof.
  rewrite score_list_counts.
  pose proof (count_members_others 0 non_members_block) as Hsum.
  rewrite count_members_non_members, non_members_block_length in Hsum.
  rewrite count_members_non_members. replace (count_others 0 non_members_block) with (2 ^ 31) by lia.
  destruct to_int_wraps as (-> & -> & _). reflexivity.
Qed.






End BeyondInt.

(** C3, as the claim has it, fails beyond [INT_MAX]: on 2^31 copies of a
    value that is not a member the counter stays 0 and [(int)n] is -2^31,
    so that the score is 0, where [max c (n - c)] is 2^31. *)
Lemma score_list_beyond_int :
  score_list 0 non_members_block = 0 /\
  Z.max (count_members 0 non_members_block)
        (Z.of_nat (length non_members_block) - count_members 0 non_members_block) = 2 ^ 31.
Proof.
  split; [exact score_non_members_block |].
  rewrite count_members_non_members, non_members_block_length. reflexivity.
Qed.


